(** * Option pricing with variance reduction: the estimators of
    [Options_Pricing_Variance_Reduction.ipynb]

    The notebook prices a European call under Black-Scholes by Monte Carlo
    simulation, with a plain estimator ([bs_call_mc]), a control-variate
    estimator ([bs_call_cv]), an antithetic estimator ([bs_call_av]) and a
    sweep of the control's correlation over strikes.

    Numbers.  The notebook computes in NumPy [float64].  The development
    idealises the finite values: a finite float is a real number and the
    operations on finite values are exact (no rounding, no overflow, no
    underflow, no signed zero).  What is kept of IEEE 754 is what decides the
    behaviour of the notebook on degenerate inputs: [nan] and the two
    infinities, with NumPy's rule that a division by zero or the square root
    of a negative number warns and yields [nan] or an infinity instead of
    raising.

    The theorems on signs, orders and ranges are stated for every float
    input, on the values that a function returns when it returns: they rest
    on the signs and the monotonicity of the operations, which rounding,
    overflow and underflow keep, and not on the exact value of a finite
    result. *)

From Stdlib Require Import Reals Lra Lia ZArith List Bool.
Import ListNotations.

Open Scope R_scope.

(** ** Floating-point values *)

Module NP.

Inductive float64 : Type :=
  | Fin (x : R)
  | PInf
  | NInf
  | NaN.

Definition is_finite (a : float64) : Prop :=
  match a with Fin _ => True | _ => False end.

Definition fopp (a : float64) : float64 :=
  match a with
  | Fin x => Fin (- x)
  | PInf => NInf
  | NInf => PInf
  | NaN => NaN
  end.

Definition fadd (a b : float64) : float64 :=
  match a, b with
  | NaN, _ | _, NaN => NaN
  | Fin x, Fin y => Fin (x + y)
  | PInf, NInf | NInf, PInf => NaN
  | PInf, _ | _, PInf => PInf
  | NInf, _ | _, NInf => NInf
  end.

Definition fsub (a b : float64) : float64 := fadd a (fopp b).

(** [sign_times x i]: the infinity [i] multiplied by the finite [x];
    [0 * inf] is [nan]. *)
Definition sign_times (x : R) (i : float64) : float64 :=
  if Rlt_dec 0 x then i
  else if Rlt_dec x 0 then fopp i
  else NaN.

Definition fmul (a b : float64) : float64 :=
  match a, b with
  | NaN, _ | _, NaN => NaN
  | Fin x, Fin y => Fin (x * y)
  | Fin x, i | i, Fin x => sign_times x i
  | PInf, PInf | NInf, NInf => PInf
  | PInf, NInf | NInf, PInf => NInf
  end.

(** Division.  A finite non-zero value over zero is an infinity, [0 / 0] is
    [nan]; NumPy warns and goes on.  The zero of the model is [+0.0]. *)
Definition fdiv (a b : float64) : float64 :=
  match a, b with
  | NaN, _ | _, NaN => NaN
  | Fin x, Fin y =>
      if Req_dec_T y 0 then sign_times x PInf else Fin (x / y)
  | Fin _, _ => Fin 0
  | i, Fin y => if Rlt_dec y 0 then fopp i else i
  | _, _ => NaN
  end.

(** [np.sqrt] *)
Definition fsqrt (a : float64) : float64 :=
  match a with
  | Fin x => if Rlt_dec x 0 then NaN else Fin (sqrt x)
  | PInf => PInf
  | NInf | NaN => NaN
  end.

(** [np.exp] *)
Definition fexp (a : float64) : float64 :=
  match a with
  | Fin x => Fin (exp x)
  | PInf => PInf
  | NInf => Fin 0
  | NaN => NaN
  end.

(** [np.maximum] and [np.minimum]: both propagate [nan]. *)
Definition fmaximum (a b : float64) : float64 :=
  match a, b with
  | NaN, _ | _, NaN => NaN
  | Fin x, Fin y => Fin (Rmax x y)
  | PInf, _ | _, PInf => PInf
  | NInf, c | c, NInf => c
  end.

Definition fminimum (a b : float64) : float64 :=
  match a, b with
  | NaN, _ | _, NaN => NaN
  | Fin x, Fin y => Fin (Rmin x y)
  | NInf, _ | _, NInf => NInf
  | PInf, c | c, PInf => c
  end.

(** [x ** 2] on a float *)
Definition fsquare (a : float64) : float64 := fmul a a.

(** The comparisons of IEEE 754: every comparison with [nan] is false. *)
Definition fle (a b : float64) : Prop :=
  match a, b with
  | NaN, _ | _, NaN => False
  | Fin x, Fin y => x <= y
  | NInf, _ | _, PInf => True
  | _, _ => False
  end.

Definition flt (a b : float64) : Prop :=
  match a, b with
  | NaN, _ | _, NaN => False
  | Fin x, Fin y => x < y
  | NInf, NInf | PInf, PInf => False
  | NInf, _ | _, PInf => True
  | _, _ => False
  end.

(** An integer used where a float is expected *)
Definition of_Z (n : Z) : float64 := Fin (IZR n).

(** *** Reductions over arrays *)

(** [np.sum]: in the model the result does not depend on the order of the
    additions. *)
Definition fsum (a : list float64) : float64 := fold_right fadd (Fin 0) a.

Definition size (a : list float64) : Z := Z.of_nat (length a).

(** [np.mean(a)]: the sum over the number of items; [nan] on an empty
    array. *)
Definition mean (a : list float64) : float64 := fdiv (fsum a) (of_Z (size a)).

(** [np.var(a, ddof)]: the deviations from the mean, squared, summed, and
    divided by [max(n - ddof, 0)]. *)
Definition var (a : list float64) (ddof : Z) : float64 :=
  let rcount := size a in
  let arrmean := fdiv (fsum a) (of_Z rcount) in
  let x := map (fun v => fsub v arrmean) a in
  let x := map (fun v => fmul v v) x in
  let ret := fsum x in
  let rcount := Z.max (rcount - ddof)%Z 0%Z in
  fdiv ret (of_Z rcount).

(** [np.std(a, ddof)] *)
Definition std (a : list float64) (ddof : Z) : float64 := fsqrt (var a ddof).

(** [np.dot] of two vectors *)
Definition dot (a b : list float64) : float64 :=
  fsum (map (fun p => fmul (fst p) (snd p)) (combine a b)).

(** [np.cov(x, y, ddof)[i, j]]: the rows are centred on their means, the
    products summed and scaled by [1 / fact], with [fact = n - ddof], set to
    [0.0] (after a warning) when it is not positive.  The two arrays have one
    length at every call of the notebook. *)
Definition cov_entry (u v : list float64) (ddof : Z) : float64 :=
  let fact := (Z.of_nat (length u) - ddof)%Z in
  let fact := if (fact <=? 0)%Z then 0%Z else fact in
  let cu := map (fun a => fsub a (mean u)) u in
  let cv := map (fun a => fsub a (mean v)) v in
  fmul (dot cu cv) (fdiv (Fin 1) (of_Z fact)).

Definition cov01 (x y : list float64) (ddof : Z) : float64 := cov_entry x y ddof.

(** [np.clip(a, lo, hi)] *)
Definition clip (a lo hi : float64) : float64 := fminimum (fmaximum a lo) hi.

(** [np.corrcoef(x, y)[0, 1]]: the covariance matrix (with [ddof = 1]) is
    divided by the standard deviations taken from its diagonal, rows first,
    then columns, and clipped to [-1, 1]. *)
Definition corrcoef01 (x y : list float64) : float64 :=
  let c01 := cov_entry x y 1 in
  let stddev0 := fsqrt (cov_entry x x 1) in
  let stddev1 := fsqrt (cov_entry y y 1) in
  let c01 := fdiv c01 stddev0 in
  let c01 := fdiv c01 stddev1 in
  clip c01 (Fin (-1)) (Fin 1).

(** [np.log] *)
Definition flog (a : float64) : float64 :=
  match a with
  | Fin x =>
      if Rlt_dec 0 x then Fin (ln x)
      else if Rlt_dec x 0 then NaN
      else NInf
  | PInf => PInf
  | NInf | NaN => NaN
  end.

End NP.

Import NP.

(** ** The random stream and the exceptions *)

(** [np.random.default_rng(seed)] is a generator of standard-normal draws with
    an internal position: a deterministic sequence, of which every draw
    consumes the next item. *)
Record Generator : Type := mkGenerator {
  normals : nat -> R;
  position : nat
}.

(** The only exception the notebook can meet is NumPy's [ValueError]
    (negative dimensions are not allowed); the notebook has no [raise] of its
    own. *)
Inductive exn : Type :=
  | ValueError.

Inductive result (A : Type) : Type :=
  | Ok (a : A)
  | Raise (e : exn).

Arguments Ok {A} a.
Arguments Raise {A} e.

(** Computations that advance the generator and may raise *)
Definition M (A : Type) : Type := Generator -> result (A * Generator).

Definition ret {A : Type} (a : A) : M A := fun g => Ok (a, g).

Definition bind {A B : Type} (c : M A) (k : A -> M B) : M B :=
  fun g =>
    match c g with
    | Ok (a, g') => k a g'
    | Raise e => Raise e
    end.

Notation "x <- c ;; k" := (bind c (fun x => k))
  (at level 61, c at next level, right associativity).

(** The value of an outcome, without the generator *)
Definition value {A : Type} (o : result (A * Generator)) : result A :=
  match o with
  | Ok (a, _) => Ok a
  | Raise e => Raise e
  end.

Definition raises {A : Type} (o : result A) : Prop :=
  match o with
  | Ok _ => False
  | Raise _ => True
  end.

Fixpoint take_normals (f : nat -> R) (p n : nat) : list R :=
  match n with
  | O => []
  | S k => f p :: take_normals f (S p) k
  end.

Definition advance (g : Generator) (n : nat) : Generator :=
  mkGenerator (normals g) (position g + n).

(** [rng.standard_normal(size)]: a negative size raises [ValueError]; size 0
    gives the empty array. *)
Definition standard_normal (size : Z) : M (list float64) :=
  fun g =>
    if (size <? 0)%Z then Raise ValueError
    else
      let n := Z.to_nat size in
      Ok (map Fin (take_normals (normals g) (position g) n), advance g n).

(** ** The notebook *)

Section Notebook.

(** [scipy.stats.norm.ppf], the quantile function of the standard normal
    distribution *)
Variable norm_ppf : float64 -> float64.

Definition terminal_stockprice (S0 T r sigma : float64) (samplesize : Z)
  : M (list float64) :=
  mystandardnormalsample <- standard_normal samplesize ;;
  let tmp1 := fmul (fsub r (fmul (Fin 0.5) (fsquare sigma))) T in
  let tmp2 := map (fun x => fmul (fmul sigma (fsqrt T)) x)
                  mystandardnormalsample in
  let stockprice := map (fun t => fmul S0 (fexp (fadd tmp1 t))) tmp2 in
  ret stockprice.

Definition bs_call_mc (S0 K T r sigma : float64) (samplesize : Z)
  (myepsilon : float64) : M (float64 * float64 * float64 * float64) :=
  mystockprice <- terminal_stockprice S0 T r sigma samplesize ;;
  let payoffs := map (fun s => fmaximum (fsub s K) (Fin 0)) mystockprice in
  let discountedpayoffs :=
    map (fun p => fmul (fexp (fmul (fopp r) T)) p) payoffs in
  let price := mean discountedpayoffs in
  let standarddev_rv := std discountedpayoffs 1 in
  let standarddev_mcest := fdiv standarddev_rv (fsqrt (of_Z samplesize)) in
  let aepsilon := norm_ppf (fsub (Fin 1) (fmul myepsilon (Fin 0.5))) in
  let ci_left := fsub price (fmul aepsilon standarddev_mcest) in
  let ci_right := fadd price (fmul aepsilon standarddev_mcest) in
  ret (price, standarddev_mcest, ci_left, ci_right).

Definition bs_call_cv (S0 K T r sigma : float64) (samplesize : Z)
  (myepsilon : float64)
  : M (float64 * float64 * float64 * float64 * float64) :=
  mystockprice <- terminal_stockprice S0 T r sigma samplesize ;;
  let payoffs := map (fun s => fmaximum (fsub s K) (Fin 0)) mystockprice in
  let discountedpayoffs :=
    map (fun p => fmul (fexp (fmul (fopp r) T)) p) payoffs in
  let xs := map (fun s => fmul (fexp (fmul (fopp r) T)) s) mystockprice in
  let bstar := fdiv (cov01 xs discountedpayoffs 1) (var xs 1) in
  let z := map (fun yx => fsub (fst yx) (fmul bstar (fsub (snd yx) S0)))
               (combine discountedpayoffs xs) in
  let price := mean z in
  let standarddev_rv := std z 1 in
  let standarddev_cvest := fdiv standarddev_rv (fsqrt (of_Z samplesize)) in
  let aepsilon := norm_ppf (fsub (Fin 1) (fmul myepsilon (Fin 0.5))) in
  let ci_left := fsub price (fmul aepsilon standarddev_cvest) in
  let ci_right := fadd price (fmul aepsilon standarddev_cvest) in
  let tmpcov := cov01 xs discountedpayoffs 1 in
  let tmpvarx := var xs 1 in
  let tmpvary := var discountedpayoffs 1 in
  let rhosquared := fdiv (fsquare tmpcov) (fmul tmpvarx tmpvary) in
  ret (price, standarddev_cvest, ci_left, ci_right, rhosquared).

Definition terminal_stockprice_av (S0 T r sigma : float64)
  (halfsamplesize : Z)
  : M (list float64 * list float64 * list float64) :=
  mynormals1 <- standard_normal halfsamplesize ;;
  let mynormals2 := map fopp mynormals1 in
  let tmp1 := fmul (fsub r (fmul (Fin 0.5) (fsquare sigma))) T in
  let tmp2 := map (fun x => fmul (fmul sigma (fsqrt T)) x) mynormals1 in
  let tmp3 := map (fun x => fmul (fmul sigma (fsqrt T)) x) mynormals2 in
  let stockprice1 := map (fun t => fmul S0 (fexp (fadd tmp1 t))) tmp2 in
  let stockprice2 := map (fun t => fmul S0 (fexp (fadd tmp1 t))) tmp3 in
  let allstockprices := stockprice1 ++ stockprice2 in
  ret (stockprice1, stockprice2, allstockprices).

Definition bs_call_av (S0 K T r sigma : float64) (halfsamplesize : Z)
  (myepsilon : float64)
  : M (float64 * float64 * float64 * float64 * float64) :=
  mystockprices <- terminal_stockprice_av S0 T r sigma halfsamplesize ;;
  let payoffs1 := map (fun s => fmaximum (fsub s K) (Fin 0))
                      (fst (fst mystockprices)) in
  let payoffs2 := map (fun s => fmaximum (fsub s K) (Fin 0))
                      (snd (fst mystockprices)) in
  let discpayoffs1 := map (fun p => fmul (fexp (fmul (fopp r) T)) p) payoffs1 in
  let discpayoffs2 := map (fun p => fmul (fexp (fmul (fopp r) T)) p) payoffs2 in
  let thecov := cov01 discpayoffs1 discpayoffs2 1 in
  let possiblereduction := fdiv thecov (of_Z (2 * halfsamplesize)) in
  let discpayoffs := discpayoffs1 ++ discpayoffs2 in
  let price := mean discpayoffs in
  let standarddev_rv := std discpayoffs 1 in
  let standarddev_avest :=
    fdiv standarddev_rv (fsqrt (of_Z (2 * halfsamplesize))) in
  let aepsilon := norm_ppf (fsub (Fin 1) (fmul myepsilon (Fin 0.5))) in
  let ci_left := fsub price (fmul aepsilon standarddev_avest) in
  let ci_right := fadd price (fmul aepsilon standarddev_avest) in
  ret (price, standarddev_avest, ci_left, ci_right, possiblereduction).

(** The body of the loop of the sensitivity cell, for the strike [k]: the
    pair [(rho[i], rhosquared[i])]. *)
Definition sweep_step (mystockprice : list float64) (r T k : float64)
  : float64 * float64 :=
  let payoffs := map (fun s => fmaximum (fsub s k) (Fin 0)) mystockprice in
  let discountedpayoffs :=
    map (fun p => fmul (fexp (fmul (fopp r) T)) p) payoffs in
  let ys := discountedpayoffs in
  let xs := map (fun s => fmul (fexp (fmul (fopp r) T)) s) mystockprice in
  let rho_i := corrcoef01 xs ys in
  let rhosquared_i := fsquare rho_i in
  (rho_i, rhosquared_i).

(** The loop over the strikes, on one sample of terminal prices *)
Definition sweep (mystockprice : list float64) (r T : float64)
  (strikes : list float64) : list (float64 * float64) :=
  map (sweep_step mystockprice r T) strikes.

End Notebook.

(** ** The analytical price *)

(** The notebook calls [black_scholes_call] on Python floats: the division
    [S0 / K] is Python's, which raises [ZeroDivisionError] on a zero divisor;
    the later division is NumPy's, which does not raise. *)
Inductive arith_exn : Type :=
  | ZeroDivisionError.

Definition py_div (a b : float64) : float64 + arith_exn :=
  match b with
  | Fin y => if Req_dec_T y 0 then inr ZeroDivisionError else inl (fdiv a b)
  | _ => inl (fdiv a b)
  end.

Section Analytical.

(** [scipy.stats.norm.cdf(x, loc=0, scale=1)], the distribution function of
    the standard normal distribution *)
Variable norm_cdf : float64 -> float64.

Definition black_scholes_call (S0 K r T sigma : float64)
  : float64 + arith_exn :=
  match py_div S0 K with
  | inr e => inr e
  | inl ratio =>
      let d1 :=
        fdiv (fadd (flog ratio)
                   (fmul (fadd r (fmul (Fin 0.5) (fsquare sigma))) T))
             (fmul sigma (fsqrt T)) in
      let d2 := fsub d1 (fmul sigma (fsqrt T)) in
      let tmp1 := fmul S0 (norm_cdf d1) in
      let tmp2 := fmul (fmul K (fexp (fmul (fopp r) T))) (norm_cdf d2) in
      let price := fsub tmp1 tmp2 in
      inl price
  end.

End Analytical.

(** The grid of strikes of the sensitivity cell:
    [np.linspace(start, stop, num)] has [num] points [start + i * step] with
    [step = (stop - start) / (num - 1)], the last one set to [stop]. *)
Definition linspace (start stop : R) (num : nat) : list float64 :=
  match num with
  | O => []
  | S O => [Fin start]
  | S m =>
      let step := (stop - start) / INR m in
      map (fun i => Fin (start + INR i * step)) (seq 0 m) ++ [Fin stop]
  end.

Definition strikes : list float64 := linspace 0 80 100.

(** The sensitivity cell: one sample of 200000 terminal prices, then the loop
    over the grid of strikes. *)
Definition sensitivity_cell : M (list (float64 * float64)) :=
  let S0 := Fin 50 in
  let T := Fin 0.25 in
  let r := Fin 0.05 in
  let sigma := Fin 0.3 in
  let samplesize := 200000%Z in
  myst <- terminal_stockprice S0 T r sigma samplesize ;;
  let mystockprice := myst in
  ret (sweep mystockprice r T strikes).

(** ** The statistics of the specification, on real numbers *)

Module Stat.

Definition sum (l : list R) : R := fold_right Rplus 0 l.

Definition mean (l : list R) : R := sum l / INR (length l).

(** The unbiased sample covariance of two paired samples *)
Definition cov (xs ys : list R) : R :=
  sum (map (fun p => (fst p - mean xs) * (snd p - mean ys)) (combine xs ys))
  / (INR (length xs) - 1).

(** The unbiased sample variance and standard deviation *)
Definition var (xs : list R) : R :=
  sum (map (fun x => (x - mean xs) * (x - mean xs)) xs)
  / (INR (length xs) - 1).

Definition stdev (xs : list R) : R := sqrt (var xs).

(** The sample correlation *)
Definition corr (xs ys : list R) : R :=
  cov xs ys / sqrt (var xs) / sqrt (var ys).

End Stat.

(** The terminal price of the risk-neutral lognormal model for the draw [x],
    and the discounted payoff of the call, as formulas on real numbers *)
Definition gbm_terminal (S0 r sigma T x : R) : R :=
  S0 * exp ((r - sigma * sigma / 2) * T + sigma * sqrt T * x).

Definition discounted_call (K r T s : R) : R :=
  exp (- (r * T)) * Rmax (s - K) 0.

(** The same two formulas on floats *)
Definition terminal_price (S0 r sigma T x : float64) : float64 :=
  fmul S0
    (fexp (fadd (fmul (fsub r (fmul (Fin 0.5) (fsquare sigma))) T)
                (fmul (fmul sigma (fsqrt T)) x))).

Definition discounted_payoff (K r T s : float64) : float64 :=
  fmul (fexp (fmul (fopp r) T)) (fmaximum (fsub s K) (Fin 0)).

(** The control: the discounted terminal price *)
Definition discounted_stock (r T s : float64) : float64 :=
  fmul (fexp (fmul (fopp r) T)) s.

(** The adjusted observations [Z_i = Y_i - b * (X_i - S0)] *)
Definition adjusted (b S0 : float64) (Y X : list float64) : list float64 :=
  map (fun yx => fsub (fst yx) (fmul b (fsub (snd yx) S0))) (combine Y X).

(** Price, standard error and two-sided confidence bounds from a set of
    observations [Y], for a stated sample size [n] and level [eps] *)
Definition gaussian_summary (ppf : float64 -> float64) (Y : list float64)
  (n : Z) (eps : float64) : float64 * float64 * float64 * float64 :=
  let price := mean Y in
  let stderr := fdiv (std Y 1) (fsqrt (of_Z n)) in
  let z := ppf (fsub (Fin 1) (fmul eps (Fin 0.5))) in
  (price, stderr, fsub price (fmul z stderr), fadd price (fmul z stderr)).



(** A value of the unit interval, by the comparisons of the floats *)
Definition in_unit_interval (a : float64) : Prop :=
  fle (Fin 0) a /\ fle a (Fin 1).

(** A quantile function and two generators to run the notebook on *)
Definition affine_ppf (p : float64) : float64 :=
  match p with
  | Fin x => Fin (x - 1 / 2)
  | _ => NaN
  end.

Definition zero_stream : Generator := mkGenerator (fun _ => 0) 0.

Definition ramp_stream : Generator := mkGenerator (fun i => INR i) 0.

(** A value that is [nan] or not negative: what the square roots, the
    exponentials, the maxima with zero and their products and quotients
    are, whatever the rounding *)
Definition nonneg_or_nan (a : float64) : Prop :=
  a = NaN \/ fle (Fin 0) a.



(** A distribution function has its values in [0, 1], or is [nan]. *)
Definition probability_valued (cdf : float64 -> float64) : Prop :=
  forall a : float64,
    cdf a = NaN \/ exists p : R, cdf a = Fin p /\ 0 <= p <= 1.

(** A distribution function to run the analytical price on: the one of the
    point mass at zero *)
Definition step_cdf (a : float64) : float64 :=
  match a with
  | Fin x => if Rle_dec 0 x then Fin 1 else Fin 0
  | PInf => Fin 1
  | NInf => Fin 0
  | NaN => NaN
  end.

(** ** Arithmetic of the floats *)

Lemma fdiv_Fin (x y : R) : y <> 0 -> fdiv (Fin x) (Fin y) = Fin (x / y).
Proof.
  intros Hy. unfold fdiv. destruct (Req_dec_T y 0); [contradiction | reflexivity].
Qed.

Lemma fdiv_zero_zero : fdiv (Fin 0) (Fin 0) = NaN.
Proof.
  unfold fdiv, sign_times.
  destruct (Req_dec_T 0 0) as [_ | H]; [| now elim H].
  destruct (Rlt_dec 0 0) as [H | _]; [lra | reflexivity].
Qed.

Lemma fsqrt_Fin (x : R) : 0 <= x -> fsqrt (Fin x) = Fin (sqrt x).
Proof.
  intros Hx. unfold fsqrt. destruct (Rlt_dec x 0); [lra | reflexivity].
Qed.

Lemma fsqrt_neg (x : R) : x < 0 -> fsqrt (Fin x) = NaN.
Proof.
  intros Hx. unfold fsqrt. destruct (Rlt_dec x 0); [reflexivity | lra].
Qed.

Lemma fadd_finite_inv (a b : float64) (s : R) :
  fadd a b = Fin s -> exists x y, a = Fin x /\ b = Fin y /\ s = x + y.
Proof.
  destruct a, b; simpl; intros H; try discriminate.
  injection H as <-. eauto.
Qed.

Lemma sign_times_not_finite (x : R) (i : float64) :
  ~ is_finite i -> ~ is_finite (sign_times x i).
Proof.
  unfold sign_times. intros Hi.
  destruct (Rlt_dec 0 x); [assumption |].
  destruct (Rlt_dec x 0); [| simpl; tauto].
  destruct i; simpl in *; tauto.
Qed.

Lemma fmul_self_finite_inv (a : float64) (s : R) :
  fmul a a = Fin s -> exists x, a = Fin x /\ s = x * x.
Proof.
  destruct a; simpl; intros H; try discriminate.
  injection H as <-. eauto.
Qed.

Lemma fmul_NaN_l (a : float64) : fmul NaN a = NaN.
Proof. reflexivity. Qed.

Lemma fmul_NaN_r (a : float64) : fmul a NaN = NaN.
Proof. destruct a; reflexivity. Qed.

Lemma fadd_NaN_r (a : float64) : fadd a NaN = NaN.
Proof. destruct a; reflexivity. Qed.

Lemma fsub_NaN_r (a : float64) : fsub a NaN = NaN.
Proof. destruct a; reflexivity. Qed.

Lemma fdiv_NaN_r (a : float64) : fdiv a NaN = NaN.
Proof. destruct a; reflexivity. Qed.

Create Rewrite HintDb nan.

#[local] Hint Rewrite fmul_NaN_l fmul_NaN_r fadd_NaN_r fsub_NaN_r fdiv_NaN_r
  : nan.

(** ** The reductions on arrays of finite values *)

Lemma fsum_Fin (l : list R) : fsum (map Fin l) = Fin (Stat.sum l).
Proof.
  unfold fsum. induction l as [| x l IH]; simpl; [reflexivity |].
  rewrite IH. reflexivity.
Qed.

Lemma size_Fin (l : list R) : of_Z (size (map Fin l)) = Fin (INR (length l)).
Proof.
  unfold of_Z, size. rewrite length_map, <- INR_IZR_INZ. reflexivity.
Qed.

Lemma INR_length_pos (A : Type) (l : list A) :
  (1 <= length l)%nat -> 0 < INR (length l).
Proof. intros H. apply lt_0_INR. lia. Qed.

Lemma mean_Fin (l : list R) :
  (1 <= length l)%nat -> mean (map Fin l) = Fin (Stat.mean l).
Proof.
  intros H. unfold mean. rewrite fsum_Fin, size_Fin.
  apply fdiv_Fin. pose proof (INR_length_pos _ l H). lra.
Qed.

Lemma centre_Fin (l : list R) (m : R) :
  map (fun v => fsub v (Fin m)) (map Fin l) = map Fin (map (fun x => x - m) l).
Proof. rewrite !map_map. reflexivity. Qed.

Lemma squares_Fin (l : list R) :
  map (fun v => fmul v v) (map Fin l) = map Fin (map (fun x => x * x) l).
Proof. rewrite !map_map. reflexivity. Qed.

Lemma count_minus_one (n : nat) :
  (2 <= n)%nat -> IZR (Z.max (Z.of_nat n - 1) 0) = INR n - 1.
Proof.
  intros H. rewrite Z.max_l by lia.
  rewrite minus_IZR, <- INR_IZR_INZ. reflexivity.
Qed.

Lemma var_Fin (l : list R) :
  (2 <= length l)%nat -> var (map Fin l) 1 = Fin (Stat.var l).
Proof.
  intros H. unfold var.
  fold (mean (map Fin l)). rewrite mean_Fin by lia.
  rewrite centre_Fin, squares_Fin, fsum_Fin.
  unfold of_Z, size. rewrite length_map, count_minus_one by assumption.
  rewrite fdiv_Fin.
  - unfold Stat.var. rewrite map_map. reflexivity.
  - pose proof (le_INR _ _ H) as H2. simpl in H2. lra.
Qed.

Lemma sum_squares_nonneg (l : list R) :
  0 <= Stat.sum (map (fun x => x * x) l).
Proof.
  induction l as [| x l IH]; simpl; [lra |]. nra.
Qed.

Lemma stat_var_nonneg (l : list R) : (2 <= length l)%nat -> 0 <= Stat.var l.
Proof.
  intros H. unfold Stat.var.
  rewrite <- (map_map (fun x => x - Stat.mean l) (fun d => d * d)).
  pose proof (sum_squares_nonneg (map (fun x => x - Stat.mean l) l)) as Hs.
  pose proof (le_INR _ _ H) as H2. simpl in H2.
  apply Rmult_le_pos; [assumption |].
  left. apply Rinv_0_lt_compat. lra.
Qed.

Lemma std_Fin (l : list R) :
  (2 <= length l)%nat -> std (map Fin l) 1 = Fin (Stat.stdev l).
Proof.
  intros H. unfold std. rewrite var_Fin by assumption.
  apply fsqrt_Fin, stat_var_nonneg, H.
Qed.

Lemma combine_Fin (xs ys : list R) :
  combine (map Fin xs) (map Fin ys)
  = map (fun p => (Fin (fst p), Fin (snd p))) (combine xs ys).
Proof.
  revert ys. induction xs as [| x xs IH]; intros [| y ys]; simpl;
    try reflexivity.
  now rewrite IH.
Qed.

Lemma dot_Fin (xs ys : list R) :
  dot (map Fin xs) (map Fin ys)
  = Fin (Stat.sum (map (fun p => fst p * snd p) (combine xs ys))).
Proof.
  unfold dot. rewrite combine_Fin, map_map. simpl.
  rewrite <- (map_map (fun p => fst p * snd p) Fin). apply fsum_Fin.
Qed.

Lemma combine_map_both (A B C D : Type) (f : A -> C) (h : B -> D)
  (l : list A) (l' : list B) :
  combine (map f l) (map h l')
  = map (fun p => (f (fst p), h (snd p))) (combine l l').
Proof.
  revert l'. induction l as [| a l IH]; intros [| b l']; simpl;
    try reflexivity.
  now rewrite IH.
Qed.

Lemma cov_Fin (xs ys : list R) :
  (2 <= length xs)%nat -> length ys = length xs ->
  cov01 (map Fin xs) (map Fin ys) 1 = Fin (Stat.cov xs ys).
Proof.
  intros H Hlen. unfold cov01, cov_entry.
  rewrite !mean_Fin by lia. rewrite !centre_Fin, dot_Fin, length_map.
  destruct (Z.leb_spec (Z.of_nat (length xs) - 1) 0) as [Hz | Hz]; [lia |].
  unfold of_Z. rewrite minus_IZR, <- INR_IZR_INZ.
  pose proof (le_INR _ _ H) as H2. simpl in H2.
  rewrite fdiv_Fin by lra. simpl. f_equal.
  unfold Stat.cov. rewrite combine_map_both, map_map. simpl.
  field. lra.
Qed.

(** ** The formulas on finite values *)

Lemma terminal_price_Fin (S0 r sigma T x : R) :
  0 <= T ->
  terminal_price (Fin S0) (Fin r) (Fin sigma) (Fin T) (Fin x)
  = Fin (gbm_terminal S0 r sigma T x).
Proof.
  intros HT. unfold terminal_price. rewrite fsqrt_Fin by assumption.
  simpl. unfold gbm_terminal. do 3 f_equal. lra.
Qed.

Lemma terminal_price_negative_maturity (S0 r sigma x : float64) (T : R) :
  T < 0 -> terminal_price S0 r sigma (Fin T) x = NaN.
Proof.
  intros HT. unfold terminal_price. rewrite fsqrt_neg by assumption.
  autorewrite with nan. simpl fexp. now autorewrite with nan.
Qed.

Lemma discounted_payoff_Fin (K r T s : R) :
  discounted_payoff (Fin K) (Fin r) (Fin T) (Fin s)
  = Fin (discounted_call K r T s).
Proof.
  unfold discounted_payoff, discounted_call. simpl. do 2 f_equal.
  f_equal. ring.
Qed.

Lemma gaussian_summary_Fin (ppf : float64 -> float64) (ys : list R) (n : Z)
  (eps : R) :
  (2 <= length ys)%nat -> (0 < n)%Z ->
  gaussian_summary ppf (map Fin ys) n (Fin eps)
  = (Fin (Stat.mean ys),
     Fin (Stat.stdev ys / sqrt (IZR n)),
     fsub (Fin (Stat.mean ys))
          (fmul (ppf (Fin (1 - eps / 2))) (Fin (Stat.stdev ys / sqrt (IZR n)))),
     fadd (Fin (Stat.mean ys))
          (fmul (ppf (Fin (1 - eps / 2))) (Fin (Stat.stdev ys / sqrt (IZR n))))).
Proof.
  intros Hlen Hn. unfold gaussian_summary.
  rewrite mean_Fin by lia. rewrite std_Fin by assumption.
  assert (Hpos : 0 < IZR n) by (apply IZR_lt; assumption).
  unfold of_Z. rewrite fsqrt_Fin by lra.
  rewrite fdiv_Fin by (apply Rgt_not_eq, sqrt_lt_R0; assumption).
  replace (fsub (Fin 1) (fmul (Fin eps) (Fin 0.5))) with (Fin (1 - eps / 2))
    by (simpl; f_equal; lra).
  reflexivity.
Qed.

(** ** Running the samplers *)

Lemma standard_normal_run (n : nat) (g : Generator) :
  standard_normal (Z.of_nat n) g
  = Ok (map Fin (take_normals (normals g) (position g) n), advance g n).
Proof.
  unfold standard_normal.
  destruct (Z.ltb_spec (Z.of_nat n) 0) as [H | _]; [lia |].
  now rewrite Nat2Z.id.
Qed.

Lemma standard_normal_negative (size : Z) (g : Generator) :
  (size < 0)%Z -> standard_normal size g = Raise ValueError.
Proof.
  intros H. unfold standard_normal.
  destruct (Z.ltb_spec size 0) as [_ | H']; [reflexivity | lia].
Qed.

Lemma standard_normal_nonneg (size : Z) (g : Generator) :
  (0 <= size)%Z ->
  standard_normal size g
  = Ok (map Fin (take_normals (normals g) (position g) (Z.to_nat size)),
        advance g (Z.to_nat size)).
Proof.
  intros H. unfold standard_normal.
  destruct (Z.ltb_spec size 0) as [H' | _]; [lia | reflexivity].
Qed.

Lemma length_take_normals (f : nat -> R) (p n : nat) :
  length (take_normals f p n) = n.
Proof.
  revert p. induction n as [| n IH]; intros p; simpl; [reflexivity |].
  now rewrite IH.
Qed.

Lemma terminal_stockprice_run (S0 T r sigma : float64) (n : nat)
  (g : Generator) :
  terminal_stockprice S0 T r sigma (Z.of_nat n) g
  = Ok (map (fun x => terminal_price S0 r sigma T (Fin x))
            (take_normals (normals g) (position g) n),
        advance g n).
Proof.
  unfold terminal_stockprice, bind. rewrite standard_normal_run.
  unfold ret. rewrite !map_map. reflexivity.
Qed.

Lemma terminal_stockprice_av_run (S0 T r sigma : float64) (n : nat)
  (g : Generator) :
  let xs := take_normals (normals g) (position g) n in
  let S1 := map (fun x => terminal_price S0 r sigma T (Fin x)) xs in
  let S2 := map (fun x => terminal_price S0 r sigma T (Fin (- x))) xs in
  terminal_stockprice_av S0 T r sigma (Z.of_nat n) g
  = Ok ((S1, S2, S1 ++ S2), advance g n).
Proof.
  unfold terminal_stockprice_av, bind. rewrite standard_normal_run.
  unfold ret. rewrite !map_map. reflexivity.
Qed.

Lemma payoffs_Fin (S0 K T r sigma : R) (xs : list R) :
  0 <= T ->
  map (discounted_payoff (Fin K) (Fin r) (Fin T))
      (map (fun x => terminal_price (Fin S0) (Fin r) (Fin sigma) (Fin T) (Fin x))
           xs)
  = map Fin (map (discounted_call K r T) (map (gbm_terminal S0 r sigma T) xs)).
Proof.
  intros HT. rewrite !map_map. apply map_ext. intros x.
  rewrite terminal_price_Fin by assumption. apply discounted_payoff_Fin.
Qed.

Lemma bs_call_mc_run (ppf : float64 -> float64) (S0 K T r sigma eps : float64)
  (n : nat) (g : Generator) :
  bs_call_mc ppf S0 K T r sigma (Z.of_nat n) eps g
  = Ok (gaussian_summary ppf
          (map (discounted_payoff K r T)
             (map (fun x => terminal_price S0 r sigma T (Fin x))
                (take_normals (normals g) (position g) n)))
          (Z.of_nat n) eps,
        advance g n).
Proof.
  unfold bs_call_mc, bind. rewrite terminal_stockprice_run.
  unfold ret, gaussian_summary. rewrite !map_map. reflexivity.
Qed.

Lemma bs_call_mc_finite (ppf : float64 -> float64) (S0 K T r sigma eps : R)
  (n : nat) (g : Generator) :
  0 <= T ->
  bs_call_mc ppf (Fin S0) (Fin K) (Fin T) (Fin r) (Fin sigma) (Z.of_nat n)
             (Fin eps) g
  = Ok (gaussian_summary ppf
          (map Fin
             (map (discounted_call K r T)
                (map (gbm_terminal S0 r sigma T)
                   (take_normals (normals g) (position g) n))))
          (Z.of_nat n) (Fin eps),
        advance g n).
Proof.
  intros HT. rewrite bs_call_mc_run, payoffs_Fin by assumption. reflexivity.
Qed.

(** ** The plain estimator *)

(** C1.  On every sample of [n] draws the plain estimator returns the mean of
    the discounted payoffs, their unbiased standard deviation over [sqrt n],
    and the bounds [price -/+ z * stderr] with [z] the quantile at
    [1 - eps / 2], each terminal price being
    [S0 * exp ((r - sigma^2 / 2) T + sigma sqrt(T) x_i)]: as NumPy computes
    them on all inputs, and as the statistics on real numbers when the
    parameters are finite, the maturity is not negative and there are at
    least two draws. *)
Theorem bs_call_mc_estimate :
  (forall (ppf : float64 -> float64) (S0 K T r sigma eps : float64) (n : nat)
          (g : Generator),
      let xs := take_normals (normals g) (position g) n in
      let S := map (fun x => terminal_price S0 r sigma T (Fin x)) xs in
      let Y := map (discounted_payoff K r T) S in
      let price := mean Y in
      let stderr := fdiv (std Y 1) (fsqrt (of_Z (Z.of_nat n))) in
      let z := ppf (fsub (Fin 1) (fmul eps (Fin 0.5))) in
      bs_call_mc ppf S0 K T r sigma (Z.of_nat n) eps g
      = Ok ((price, stderr,
             fsub price (fmul z stderr), fadd price (fmul z stderr)),
            advance g n))
  /\
  (forall (ppf : float64 -> float64) (S0 K T r sigma eps : R) (n : nat)
          (g : Generator),
      0 <= T -> (2 <= n)%nat ->
      let xs := take_normals (normals g) (position g) n in
      let y := map (discounted_call K r T) (map (gbm_terminal S0 r sigma T) xs) in
      let price := Stat.mean y in
      let stderr := Stat.stdev y / sqrt (INR n) in
      let z := ppf (Fin (1 - eps / 2)) in
      bs_call_mc ppf (Fin S0) (Fin K) (Fin T) (Fin r) (Fin sigma)
                 (Z.of_nat n) (Fin eps) g
      = Ok ((Fin price, Fin stderr,
             fsub (Fin price) (fmul z (Fin stderr)),
             fadd (Fin price) (fmul z (Fin stderr))),
            advance g n)).
Proof.
  split.
  - intros. apply bs_call_mc_run.
  - intros ppf S0 K T r sigma eps n g HT Hn xs y price stderr z.
    rewrite bs_call_mc_finite by assumption. fold xs. fold y.
    rewrite gaussian_summary_Fin.
    + rewrite <- INR_IZR_INZ. reflexivity.
    + unfold y, xs. rewrite !length_map, length_take_normals. assumption.
    + lia.
Qed.

(** ** The control-variate estimator *)

Lemma bs_call_cv_run (ppf : float64 -> float64) (S0 K T r sigma eps : float64)
  (n : nat) (g : Generator) :
  let S := map (fun x => terminal_price S0 r sigma T (Fin x))
               (take_normals (normals g) (position g) n) in
  let X := map (discounted_stock r T) S in
  let Y := map (discounted_payoff K r T) S in
  let bstar := fdiv (cov01 X Y 1) (var X 1) in
  bs_call_cv ppf S0 K T r sigma (Z.of_nat n) eps g
  = Ok ((gaussian_summary ppf (adjusted bstar S0 Y X) (Z.of_nat n) eps,
         fdiv (fsquare (cov01 X Y 1)) (fmul (var X 1) (var Y 1))),
        advance g n).
Proof.
  unfold bs_call_cv, bind. rewrite terminal_stockprice_run.
  unfold ret, gaussian_summary, adjusted. rewrite !map_map. reflexivity.
Qed.

Lemma controls_Fin (S0 T r sigma : R) (xs : list R) :
  0 <= T ->
  map (discounted_stock (Fin r) (Fin T))
      (map (fun x => terminal_price (Fin S0) (Fin r) (Fin sigma) (Fin T) (Fin x))
           xs)
  = map Fin (map (fun s => exp (- (r * T)) * s)
                 (map (gbm_terminal S0 r sigma T) xs)).
Proof.
  intros HT. rewrite !map_map. apply map_ext. intros x.
  rewrite terminal_price_Fin by assumption.
  unfold discounted_stock. simpl. do 2 f_equal. f_equal. ring.
Qed.

Lemma adjusted_Fin (b S0 : R) (ys xs : list R) :
  adjusted (Fin b) (Fin S0) (map Fin ys) (map Fin xs)
  = map Fin (map (fun p => fst p - b * (snd p - S0)) (combine ys xs)).
Proof.
  unfold adjusted. rewrite combine_Fin, !map_map. reflexivity.
Qed.

Lemma bs_call_cv_finite (ppf : float64 -> float64) (S0 K T r sigma eps : R)
  (n : nat) (g : Generator) :
  let s := map (gbm_terminal S0 r sigma T)
               (take_normals (normals g) (position g) n) in
  let x := map (fun si => exp (- (r * T)) * si) s in
  let y := map (discounted_call K r T) s in
  let bstar := Stat.cov x y / Stat.var x in
  let z := map (fun p => fst p - bstar * (snd p - S0)) (combine y x) in
  0 <= T -> (2 <= n)%nat -> Stat.var x <> 0 ->
  bs_call_cv ppf (Fin S0) (Fin K) (Fin T) (Fin r) (Fin sigma) (Z.of_nat n)
             (Fin eps) g
  = Ok ((gaussian_summary ppf (map Fin z) (Z.of_nat n) (Fin eps),
         fdiv (Fin (Stat.cov x y * Stat.cov x y))
              (Fin (Stat.var x * Stat.var y))),
        advance g n).
Proof.
  intros s x y bstar z HT Hn Hvx.
  assert (Hlx : length x = n)
    by (unfold x, s; now rewrite !length_map, length_take_normals).
  assert (Hly : length y = n)
    by (unfold y, s; now rewrite !length_map, length_take_normals).
  rewrite bs_call_cv_run, controls_Fin, payoffs_Fin by assumption.
  fold s. fold x. fold y.
  rewrite cov_Fin, !var_Fin by lia.
  rewrite (fdiv_Fin _ _ Hvx). fold bstar.
  rewrite adjusted_Fin. reflexivity.
Qed.

(** C2.  The control-variate estimator takes [b* = Cov(X, Y) / Var(X)] with
    the unbiased covariance and variance of the same [n] observations, forms
    [Z_i = Y_i - b* (X_i - S0)], returns price, standard error and bounds of
    [Z] as the plain estimator does of its payoffs, and the diagnostic
    [Cov(X, Y)^2 / (Var(X) Var(Y))]: as NumPy computes them on all inputs,
    and as the statistics on real numbers when the parameters are finite,
    the maturity is not negative, there are at least two draws and the
    variance of the control is not zero. *)
Theorem bs_call_cv_estimate :
  (forall (ppf : float64 -> float64) (S0 K T r sigma eps : float64) (n : nat)
          (g : Generator),
      let xs := take_normals (normals g) (position g) n in
      let S := map (fun x => terminal_price S0 r sigma T (Fin x)) xs in
      let X := map (discounted_stock r T) S in
      let Y := map (discounted_payoff K r T) S in
      let bstar := fdiv (cov01 X Y 1) (var X 1) in
      let Z := adjusted bstar S0 Y X in
      let rho_squared :=
        fdiv (fsquare (cov01 X Y 1)) (fmul (var X 1) (var Y 1)) in
      bs_call_cv ppf S0 K T r sigma (Z.of_nat n) eps g
      = Ok ((gaussian_summary ppf Z (Z.of_nat n) eps, rho_squared),
            advance g n))
  /\
  (forall (ppf : float64 -> float64) (S0 K T r sigma eps : R) (n : nat)
          (g : Generator),
      let xs := take_normals (normals g) (position g) n in
      let s := map (gbm_terminal S0 r sigma T) xs in
      let x := map (fun si => exp (- (r * T)) * si) s in
      let y := map (discounted_call K r T) s in
      let bstar := Stat.cov x y / Stat.var x in
      let z := map (fun p => fst p - bstar * (snd p - S0)) (combine y x) in
      let price := Stat.mean z in
      let stderr := Stat.stdev z / sqrt (INR n) in
      let q := ppf (Fin (1 - eps / 2)) in
      0 <= T -> (2 <= n)%nat -> Stat.var x <> 0 ->
      exists rho_squared : float64,
        bs_call_cv ppf (Fin S0) (Fin K) (Fin T) (Fin r) (Fin sigma)
                   (Z.of_nat n) (Fin eps) g
        = Ok ((Fin price, Fin stderr,
               fsub (Fin price) (fmul q (Fin stderr)),
               fadd (Fin price) (fmul q (Fin stderr)),
               rho_squared),
              advance g n)
        /\ (Stat.var y <> 0 ->
            rho_squared
            = Fin (Stat.cov x y * Stat.cov x y / (Stat.var x * Stat.var y)))).
Proof.
  split.
  - intros. apply bs_call_cv_run.
  - intros ppf S0 K T r sigma eps n g xs s x y bstar z price stderr q
           HT Hn Hvx.
    rewrite bs_call_cv_finite by assumption.
    fold xs. fold s. fold x. fold y. fold bstar. fold z.
    rewrite gaussian_summary_Fin.
    + rewrite <- INR_IZR_INZ. eexists. split; [reflexivity |].
      intros Hvy. apply fdiv_Fin. nra.
    + unfold z, y, x, s, xs.
      rewrite length_map, length_combine, !length_map, length_take_normals.
      lia.
    + lia.
Qed.

(** ** The antithetic estimator *)

Lemma bs_call_av_run (ppf : float64 -> float64) (S0 K T r sigma eps : float64)
  (n : nat) (g : Generator) :
  let xs := take_normals (normals g) (position g) n in
  let Y1 := map (discounted_payoff K r T)
                (map (fun x => terminal_price S0 r sigma T (Fin x)) xs) in
  let Y2 := map (discounted_payoff K r T)
                (map (fun x => terminal_price S0 r sigma T (Fin x))
                     (map Ropp xs)) in
  bs_call_av ppf S0 K T r sigma (Z.of_nat n) eps g
  = Ok ((gaussian_summary ppf (Y1 ++ Y2) (2 * Z.of_nat n) eps,
         fdiv (cov01 Y1 Y2 1) (of_Z (2 * Z.of_nat n))),
        advance g n).
Proof.
  unfold bs_call_av, bind. rewrite terminal_stockprice_av_run.
  unfold ret, gaussian_summary. simpl fst. simpl snd.
  rewrite !map_map. reflexivity.
Qed.

Lemma bs_call_av_finite (ppf : float64 -> float64) (S0 K T r sigma eps : R)
  (n : nat) (g : Generator) :
  let xs := take_normals (normals g) (position g) n in
  let y1 := map (discounted_call K r T) (map (gbm_terminal S0 r sigma T) xs) in
  let y2 := map (discounted_call K r T)
                (map (gbm_terminal S0 r sigma T) (map Ropp xs)) in
  0 <= T ->
  bs_call_av ppf (Fin S0) (Fin K) (Fin T) (Fin r) (Fin sigma) (Z.of_nat n)
             (Fin eps) g
  = Ok ((gaussian_summary ppf (map Fin (y1 ++ y2)) (2 * Z.of_nat n) (Fin eps),
         fdiv (cov01 (map Fin y1) (map Fin y2) 1) (of_Z (2 * Z.of_nat n))),
        advance g n).
Proof.
  intros xs y1 y2 HT.
  rewrite bs_call_av_run, !payoffs_Fin by assumption.
  rewrite <- map_app. reflexivity.
Qed.

(** C3.  The antithetic sampler builds, from the draws [x_i] and from their
    opposites, two sequences of terminal prices aligned by index, and their
    concatenation; the estimator takes the unbiased covariance of the two
    sequences of discounted payoffs, returns price, standard error and
    bounds of the concatenated sample as the plain estimator does for the
    sample size [2 * half_n], and the diagnostic [thecov / (2 * half_n)]. *)
Theorem bs_call_av_estimate :
  (forall (ppf : float64 -> float64) (S0 K T r sigma eps : float64)
          (half_n : nat) (g : Generator),
      let xs := take_normals (normals g) (position g) half_n in
      let S1 := map (fun x => terminal_price S0 r sigma T (Fin x)) xs in
      let S2 := map (fun x => terminal_price S0 r sigma T (Fin (- x))) xs in
      let Y1 := map (discounted_payoff K r T) S1 in
      let Y2 := map (discounted_payoff K r T) S2 in
      let thecov := cov01 Y1 Y2 1 in
      terminal_stockprice_av S0 T r sigma (Z.of_nat half_n) g
      = Ok ((S1, S2, S1 ++ S2), advance g half_n)
      /\ bs_call_av ppf S0 K T r sigma (Z.of_nat half_n) eps g
         = Ok ((gaussian_summary ppf (Y1 ++ Y2) (2 * Z.of_nat half_n) eps,
                fdiv thecov (of_Z (2 * Z.of_nat half_n))),
               advance g half_n))
  /\
  (forall (ppf : float64 -> float64) (S0 K T r sigma eps : R) (half_n : nat)
          (g : Generator),
      let xs := take_normals (normals g) (position g) half_n in
      let y1 := map (discounted_call K r T)
                    (map (gbm_terminal S0 r sigma T) xs) in
      let y2 := map (discounted_call K r T)
                    (map (gbm_terminal S0 r sigma T) (map Ropp xs)) in
      let y := y1 ++ y2 in
      let price := Stat.mean y in
      let stderr := Stat.stdev y / sqrt (2 * INR half_n) in
      let q := ppf (Fin (1 - eps / 2)) in
      0 <= T -> (1 <= half_n)%nat ->
      exists possible_reduction : float64,
        bs_call_av ppf (Fin S0) (Fin K) (Fin T) (Fin r) (Fin sigma)
                   (Z.of_nat half_n) (Fin eps) g
        = Ok ((Fin price, Fin stderr,
               fsub (Fin price) (fmul q (Fin stderr)),
               fadd (Fin price) (fmul q (Fin stderr)),
               possible_reduction),
              advance g half_n)
        /\ ((2 <= half_n)%nat ->
            possible_reduction = Fin (Stat.cov y1 y2 / (2 * INR half_n)))).
Proof.
  split.
  - intros ppf S0 K T r sigma eps half_n g xs S1 S2 Y1 Y2 thecov. split.
    + apply terminal_stockprice_av_run.
    + rewrite bs_call_av_run. unfold thecov, Y1, Y2, S1, S2, xs.
      rewrite (map_map Ropp). reflexivity.
  - intros ppf S0 K T r sigma eps half_n g xs y1 y2 y price stderr q HT Hn.
    assert (Hl1 : length y1 = half_n)
      by (unfold y1, xs; now rewrite !length_map, length_take_normals).
    assert (Hl2 : length y2 = half_n)
      by (unfold y2, xs; now rewrite !length_map, length_take_normals).
    rewrite bs_call_av_finite by assumption.
    fold xs. fold y1. fold y2. fold y.
    assert (H2n : IZR (2 * Z.of_nat half_n) = 2 * INR half_n)
      by (rewrite mult_IZR, <- INR_IZR_INZ; reflexivity).
    rewrite gaussian_summary_Fin.
    + rewrite H2n. eexists. split; [reflexivity |].
      intros H2. rewrite cov_Fin by lia. unfold of_Z. rewrite H2n.
      apply fdiv_Fin. pose proof (INR_length_pos _ y1 ltac:(lia)) as Hp.
      rewrite Hl1 in Hp. lra.
    + unfold y. rewrite length_app. lia.
    + lia.
Qed.

(** ** A control of zero variance *)

Lemma fsum_squares_finite_inv (l : list float64) (s : R) :
  fsum (map (fun v => fmul v v) l) = Fin s ->
  0 <= s /\ (s = 0 -> Forall (fun v => v = Fin 0) l).
Proof.
  revert s. induction l as [| v l IH]; intros s H.
  - injection H as <-. split; [lra | constructor].
  - change (fadd (fmul v v) (fsum (map (fun v => fmul v v) l)) = Fin s) in H.
    apply fadd_finite_inv in H as (a & b & Ha & Hb & ->).
    apply fmul_self_finite_inv in Ha as (x & -> & ->).
    destruct (IH b Hb) as [Hb0 Hall]. split; [nra |].
    intros Hs. assert (x = 0 /\ b = 0) as [-> Hb1] by nra.
    constructor; [reflexivity | auto].
Qed.

Lemma fdiv_finite_zero_inv (a : float64) (c : R) :
  fdiv a (Fin c) = Fin 0 -> a = Fin 0 /\ c <> 0.
Proof.
  destruct a as [x | | |]; simpl; try discriminate.
  - destruct (Req_dec_T c 0) as [-> | Hc].
    + intros H. exfalso.
      apply (sign_times_not_finite x PInf); [simpl; tauto |].
      rewrite H. exact I.
    + intros H. injection H as H. split; [| assumption]. f_equal.
      apply (Rmult_eq_compat_r c) in H. unfold Rdiv in H.
      rewrite Rmult_assoc, Rinv_l in H by assumption. lra.
  - destruct (Rlt_dec c 0); discriminate.
  - destruct (Rlt_dec c 0); discriminate.
Qed.

(** A variance of zero: at least two items, all equal to their mean. *)
Lemma var_zero_inv (a : list float64) :
  var a 1 = Fin 0 ->
  (2 <= length a)%nat /\ Forall (fun d => d = Fin 0) (map (fun v => fsub v (mean a)) a).
Proof.
  unfold var. fold (mean a). intros H. unfold of_Z at 1 in H.
  apply fdiv_finite_zero_inv in H as [Hsum Hcount]. split.
  - destruct (Nat.le_gt_cases 2 (length a)) as [Hle | Hgt]; [assumption |].
    exfalso. apply Hcount. unfold size. rewrite Z.max_r by lia. reflexivity.
  - apply fsum_squares_finite_inv in Hsum as [_ Hall]. now apply Hall.
Qed.

Lemma zero_or_nan_add (a b : float64) :
  a = Fin 0 \/ a = NaN -> b = Fin 0 \/ b = NaN ->
  fadd a b = Fin 0 \/ fadd a b = NaN.
Proof.
  intros [-> | ->] [-> | ->]; simpl; auto.
  left. f_equal. lra.
Qed.

Lemma zero_times (b : float64) : fmul (Fin 0) b = Fin 0 \/ fmul (Fin 0) b = NaN.
Proof.
  destruct b as [y | | |]; simpl; auto.
  - left. f_equal. lra.
  - unfold sign_times. destruct (Rlt_dec 0 0); [lra | auto].
  - unfold sign_times. destruct (Rlt_dec 0 0); [lra | auto].
Qed.

Lemma dot_zero_l (a b : list float64) :
  Forall (fun d => d = Fin 0) a -> dot a b = Fin 0 \/ dot a b = NaN.
Proof.
  intros Ha. revert b. induction Ha as [| d a Hd Ha IH]; intros b.
  - left. reflexivity.
  - destruct b as [| e b]; [left; reflexivity |].
    change (dot (d :: a) (e :: b)) with (fadd (fmul d e) (dot a b)).
    subst d. apply zero_or_nan_add; [apply zero_times | apply IH].
Qed.

Lemma cov_zero_variance (X Y : list float64) :
  var X 1 = Fin 0 -> cov01 X Y 1 = Fin 0 \/ cov01 X Y 1 = NaN.
Proof.
  intros H. apply var_zero_inv in H as [Hn Hall].
  unfold cov01, cov_entry.
  destruct (Z.leb_spec (Z.of_nat (length X) - 1) 0) as [Hz | Hz]; [lia |].
  unfold of_Z. rewrite fdiv_Fin by (apply not_0_IZR; lia).
  destruct (dot_zero_l _ (map (fun a => fsub a (mean Y)) Y) Hall) as [-> | ->].
  - left. simpl. f_equal. lra.
  - right. reflexivity.
Qed.

(** Reductions over an array of [nan]s *)
Lemma fsum_nan (l : list float64) :
  l <> [] -> Forall (fun v => v = NaN) l -> fsum l = NaN.
Proof.
  intros Hne Hall. destruct Hall as [| v l Hv _]; [congruence |].
  subst v. reflexivity.
Qed.

Lemma mean_nan (l : list float64) :
  l <> [] -> Forall (fun v => v = NaN) l -> mean l = NaN.
Proof. intros Hne Hall. unfold mean. now rewrite fsum_nan. Qed.

Lemma std_nan (l : list float64) :
  l <> [] -> Forall (fun v => v = NaN) l -> std l 1 = NaN.
Proof.
  intros Hne Hall. unfold std, var. rewrite (fsum_nan l) by assumption.
  simpl fdiv at 2. rewrite fsum_nan; [reflexivity | |].
  - destruct l; [congruence | discriminate].
  - rewrite map_map. apply Forall_map, Forall_forall. intros v _.
    now rewrite fsub_NaN_r.
Qed.

Lemma gaussian_summary_nan (ppf : float64 -> float64) (W : list float64)
  (n : Z) (eps : float64) :
  W <> [] -> Forall (fun v => v = NaN) W ->
  gaussian_summary ppf W n eps = (NaN, NaN, NaN, NaN).
Proof.
  intros Hne Hall. unfold gaussian_summary.
  rewrite mean_nan, std_nan by assumption. reflexivity.
Qed.

Lemma adjusted_nan (S0 : float64) (Y X : list float64) :
  Forall (fun v => v = NaN) (adjusted NaN S0 Y X).
Proof.
  unfold adjusted. apply Forall_map, Forall_forall. intros [y x] _.
  simpl. apply fsub_NaN_r.
Qed.

Lemma fdiv_by_zero_of_zero (c : float64) :
  c = Fin 0 \/ c = NaN -> fdiv c (Fin 0) = NaN.
Proof. intros [-> | ->]; [apply fdiv_zero_zero | reflexivity]. Qed.

Lemma rho_squared_zero_variance (c vy : float64) :
  c = Fin 0 \/ c = NaN -> fdiv (fsquare c) (fmul (Fin 0) vy) = NaN.
Proof.
  intros Hc. destruct (zero_times vy) as [-> | ->]; [| apply fdiv_NaN_r].
  destruct Hc as [-> | ->]; [| reflexivity].
  unfold fsquare. simpl fmul. replace (0 * 0) with 0 by lra.
  apply fdiv_zero_zero.
Qed.

Lemma length_adjusted (b S0 : float64) (Y X : list float64) :
  length (adjusted b S0 Y X) = Nat.min (length Y) (length X).
Proof. unfold adjusted. now rewrite length_map, length_combine. Qed.

(** With a control of zero variance the coefficient is [0 / 0]: every
    adjusted observation is [nan], and so is every output. *)
Lemma bs_call_cv_zero_variance (ppf : float64 -> float64)
  (S0 K T r sigma eps : float64) (n : nat) (g : Generator) :
  let S := map (fun x => terminal_price S0 r sigma T (Fin x))
               (take_normals (normals g) (position g) n) in
  let X := map (discounted_stock r T) S in
  var X 1 = Fin 0 ->
  bs_call_cv ppf S0 K T r sigma (Z.of_nat n) eps g
  = Ok ((NaN, NaN, NaN, NaN, NaN), advance g n).
Proof.
  intros S X Hvar. rewrite bs_call_cv_run. fold S. fold X.
  pose proof (cov_zero_variance X (map (discounted_payoff K r T) S) Hvar)
    as Hcov.
  rewrite Hvar, (fdiv_by_zero_of_zero _ Hcov),
    (rho_squared_zero_variance _ _ Hcov).
  rewrite gaussian_summary_nan; [reflexivity | | apply adjusted_nan].
  apply var_zero_inv in Hvar as [Hn _]. intros Hnil.
  apply (f_equal (@length _)) in Hnil. rewrite length_adjusted in Hnil.
  unfold X in Hn, Hnil. rewrite !length_map in Hnil.
  rewrite length_map in Hn. simpl in Hnil. lia.
Qed.

(** The variance of a constant sample *)
Lemma stat_sum_const (c : R) (l : list R) :
  Forall (fun v => v = c) l -> Stat.sum l = INR (length l) * c.
Proof.
  induction 1 as [| v l Hv _ IH]; [simpl; lra |].
  change (Stat.sum (v :: l)) with (v + Stat.sum l).
  change (length (v :: l)) with (S (length l)).
  rewrite S_INR, IH, Hv. lra.
Qed.

Lemma stat_var_const (c : R) (l : list R) :
  (1 <= length l)%nat -> Forall (fun v => v = c) l -> Stat.var l = 0.
Proof.
  intros Hn Hall. unfold Stat.var.
  assert (Hm : Stat.mean l = c).
  { unfold Stat.mean. rewrite (stat_sum_const c) by assumption.
    field. pose proof (INR_length_pos _ l Hn). lra. }
  rewrite Hm, (stat_sum_const 0).
  - unfold Rdiv. rewrite length_map. lra.
  - apply Forall_map. eapply Forall_impl; [| exact Hall].
    intros v ->. simpl. lra.
Qed.

(** Without volatility every terminal price is [S0 * exp (r T)]. *)
Lemma gbm_terminal_no_volatility (S0 r T x : R) :
  gbm_terminal S0 r 0 T x = S0 * exp (r * T).
Proof. unfold gbm_terminal. do 2 f_equal. lra. Qed.

Lemma control_variance_no_volatility (S0 T r : R) (n : nat) (g : Generator) :
  0 <= T -> (2 <= n)%nat ->
  var (map (discounted_stock (Fin r) (Fin T))
         (map (fun x => terminal_price (Fin S0) (Fin r) (Fin 0) (Fin T) (Fin x))
            (take_normals (normals g) (position g) n))) 1
  = Fin 0.
Proof.
  intros HT Hn. rewrite controls_Fin by assumption.
  rewrite var_Fin by (now rewrite !length_map, length_take_normals).
  f_equal. apply (stat_var_const (exp (- (r * T)) * (S0 * exp (r * T)))).
  - rewrite !length_map, length_take_normals. lia.
  - rewrite map_map. apply Forall_map, Forall_forall. intros x _.
    now rewrite gbm_terminal_no_volatility.
Qed.

(** ** The invariant of the results *)





(** ** Errors *)

(** C5, as amended.  When the sample variance of the control is zero the
    control-variate estimator raises nothing: it returns a result whose
    price, standard error, bounds and squared correlation are all [nan]. *)
Theorem bs_call_cv_degenerate_control
  (ppf : float64 -> float64) (S0 K T r sigma eps : float64) (n : nat)
  (g : Generator) :
  var (map (discounted_stock r T)
         (map (fun x => terminal_price S0 r sigma T (Fin x))
            (take_normals (normals g) (position g) n))) 1 = Fin 0 ->
  bs_call_cv ppf S0 K T r sigma (Z.of_nat n) eps g
  = Ok ((NaN, NaN, NaN, NaN, NaN), advance g n).
Proof. apply bs_call_cv_zero_variance. Qed.

(** The claim of C5 fails: without volatility the variance of the control is
    zero and the estimator returns, it does not raise. *)
Lemma bs_call_cv_degenerate_no_error :
  var (map (discounted_stock (Fin 0.05) (Fin 0.25))
         (map (fun x => terminal_price (Fin 50) (Fin 0.05) (Fin 0) (Fin 0.25)
                          (Fin x))
            (take_normals (normals ramp_stream) (position ramp_stream) 2))) 1
  = Fin 0
  /\ ~ raises (value (bs_call_cv affine_ppf (Fin 50) (Fin 50) (Fin 0.25)
                        (Fin 0.05) (Fin 0) 2 (Fin 0.05) ramp_stream)).
Proof.
  assert (H := control_variance_no_volatility 50 0.25 0.05 2 ramp_stream
                 ltac:(lra) ltac:(lia)).
  split; [exact H |].
  change 2%Z with (Z.of_nat 2).
  rewrite bs_call_cv_zero_variance by exact H. simpl. tauto.
Qed.

(** Fewer than two observations: the variance with [ddof = 1] divides by
    zero. *)
Lemma std_empty : std [] 1 = NaN.
Proof.
  change (std [] 1) with (fsqrt (fdiv (Fin 0) (Fin 0))).
  now rewrite fdiv_zero_zero.
Qed.

Lemma fdiv_inf_one (i : float64) : ~ is_finite i -> fdiv i (Fin 1) = i.
Proof.
  destruct i; simpl; try tauto; intros _;
    destruct (Rlt_dec 1 0); try lra; reflexivity.
Qed.


Lemma gaussian_summary_std_nan (ppf : float64 -> float64) (Y : list float64)
  (n : Z) (eps : float64) :
  std Y 1 = NaN -> gaussian_summary ppf Y n eps = (mean Y, NaN, NaN, NaN).
Proof.
  intros H. unfold gaussian_summary. rewrite H. simpl fdiv.
  now autorewrite with nan.
Qed.






(** ** Positive prices *)

(** The claim of C10 fails for a negative maturity: the square root is
    [nan], and so is the price. *)
Lemma terminal_price_negative_maturity_nan :
  0 < 50
  /\ terminal_stockprice (Fin 50) (Fin (-1)) (Fin 0.05) (Fin 0.3) 1 zero_stream
     = Ok ([NaN], advance zero_stream 1)
  /\ ~ flt (Fin 0) NaN.
Proof.
  split; [lra |]. split; [| simpl; tauto].
  change 1%Z with (Z.of_nat 1). rewrite terminal_stockprice_run.
  cbn [map take_normals].
  rewrite terminal_price_negative_maturity by lra. reflexivity.
Qed.

(** ** The correlation of the sweep *)

Lemma sum_map_zero (A : Type) (f : A -> R) (l : list A) :
  Forall (fun a => f a = 0) l -> Stat.sum (map f l) = 0.
Proof.
  induction 1 as [| a l Ha _ IH]; [reflexivity |].
  change (f a + Stat.sum (map f l) = 0). lra.
Qed.

Lemma combine_diag (A : Type) (l : list A) :
  combine l l = map (fun a => (a, a)) l.
Proof. induction l as [| a l IH]; simpl; [reflexivity | now rewrite IH]. Qed.

Lemma stat_cov_diag (xs : list R) : Stat.cov xs xs = Stat.var xs.
Proof. unfold Stat.cov, Stat.var. now rewrite combine_diag, map_map. Qed.

(** The quadratic form of two paired sequences *)
Lemma paired_quadratic (a b : list R) (s t : R) :
  length b = length a ->
  Stat.sum (map (fun p => (s * fst p + t * snd p) * (s * fst p + t * snd p))
                (combine a b))
  = s * s * Stat.sum (map (fun u => u * u) a)
    + 2 * s * t * Stat.sum (map (fun p => fst p * snd p) (combine a b))
    + t * t * Stat.sum (map (fun u => u * u) b).
Proof.
  revert b. induction a as [| u a IH]; intros [| v b] Hlen;
    try discriminate; simpl; [lra |].
  injection Hlen as Hlen. specialize (IH b Hlen). simpl in IH.
  unfold Stat.sum in *. rewrite IH. ring.
Qed.

Lemma cauchy_schwarz (a b : list R) :
  length b = length a ->
  Stat.sum (map (fun p => fst p * snd p) (combine a b))
  * Stat.sum (map (fun p => fst p * snd p) (combine a b))
  <= Stat.sum (map (fun u => u * u) a) * Stat.sum (map (fun u => u * u) b).
Proof.
  intros Hlen.
  set (A := Stat.sum (map (fun u => u * u) a)).
  set (B := Stat.sum (map (fun p => fst p * snd p) (combine a b))).
  set (C := Stat.sum (map (fun u => u * u) b)).
  assert (HQ : forall s t, 0 <= s * s * A + 2 * s * t * B + t * t * C).
  { intros s t. unfold A, B, C. rewrite <- paired_quadratic by assumption.
    rewrite <- (map_map (fun p => s * fst p + t * snd p) (fun d => d * d)).
    apply sum_squares_nonneg. }
  assert (HC : 0 <= C) by apply sum_squares_nonneg.
  destruct (Req_dec C 0) as [HC0 | HC0].
  - pose proof (HQ (2 * B) (- (A + 1))) as H. rewrite HC0 in *.
    assert (B = 0) by nra. subst B. nra.
  - pose proof (HQ C (- B)) as H. nra.
Qed.

Lemma stat_cov_centred (xs ys : list R) :
  Stat.cov xs ys
  = Stat.sum (map (fun p => fst p * snd p)
                  (combine (map (fun v => v - Stat.mean xs) xs)
                           (map (fun v => v - Stat.mean ys) ys)))
    / (INR (length xs) - 1).
Proof. unfold Stat.cov. now rewrite combine_map_both, map_map. Qed.

Lemma stat_var_centred (xs : list R) :
  Stat.var xs
  = Stat.sum (map (fun u => u * u) (map (fun v => v - Stat.mean xs) xs))
    / (INR (length xs) - 1).
Proof. unfold Stat.var. now rewrite map_map. Qed.

(** The squared covariance is at most the product of the variances. *)
Lemma stat_cov_bound (xs ys : list R) :
  (2 <= length xs)%nat -> length ys = length xs ->
  Stat.cov xs ys * Stat.cov xs ys <= Stat.var xs * Stat.var ys.
Proof.
  intros Hn Hlen.
  rewrite stat_cov_centred, (stat_var_centred xs), (stat_var_centred ys), Hlen.
  pose proof (cauchy_schwarz (map (fun v => v - Stat.mean xs) xs)
                (map (fun v => v - Stat.mean ys) ys)
                ltac:(now rewrite !length_map)) as HCS.
  pose proof (le_INR _ _ Hn) as H2. simpl in H2.
  set (m := INR (length xs) - 1) in *. assert (Hm : 0 < m) by (unfold m; lra).
  set (B := Stat.sum _) in *. set (A := Stat.sum _) in *.
  set (C := Stat.sum _) in *.
  assert (Hi : 0 < / m) by now apply Rinv_0_lt_compat.
  unfold Rdiv. nra.
Qed.

Lemma corr_square (xs ys : list R) :
  (2 <= length xs)%nat -> length ys = length xs ->
  Stat.var xs <> 0 -> Stat.var ys <> 0 ->
  Stat.corr xs ys * Stat.corr xs ys
  = Stat.cov xs ys * Stat.cov xs ys / (Stat.var xs * Stat.var ys).
Proof.
  intros Hn Hlen Hvx Hvy. unfold Stat.corr.
  pose proof (stat_var_nonneg xs Hn) as Hx.
  pose proof (stat_var_nonneg ys ltac:(lia)) as Hy.
  assert (Hsx : sqrt (Stat.var xs) * sqrt (Stat.var xs) = Stat.var xs)
    by now apply sqrt_sqrt.
  assert (Hsy : sqrt (Stat.var ys) * sqrt (Stat.var ys) = Stat.var ys)
    by now apply sqrt_sqrt.
  assert (Hpx : 0 < sqrt (Stat.var xs)) by (apply sqrt_lt_R0; lra).
  assert (Hpy : 0 < sqrt (Stat.var ys)) by (apply sqrt_lt_R0; lra).
  set (sx := sqrt (Stat.var xs)) in *. set (sy := sqrt (Stat.var ys)) in *.
  transitivity (Stat.cov xs ys * Stat.cov xs ys / (sx * sx * (sy * sy))).
  - field. lra.
  - now rewrite Hsx, Hsy.
Qed.

Lemma corr_bounds (xs ys : list R) :
  (2 <= length xs)%nat -> length ys = length xs ->
  Stat.var xs <> 0 -> Stat.var ys <> 0 ->
  -1 <= Stat.corr xs ys <= 1
  /\ 0 <= Stat.corr xs ys * Stat.corr xs ys <= 1.
Proof.
  intros Hn Hlen Hvx Hvy.
  pose proof (corr_square xs ys Hn Hlen Hvx Hvy) as Hsq.
  pose proof (stat_cov_bound xs ys Hn Hlen) as Hb.
  pose proof (stat_var_nonneg xs Hn) as Hx.
  pose proof (stat_var_nonneg ys ltac:(lia)) as Hy.
  assert (Hp : 0 < Stat.var xs * Stat.var ys) by nra.
  assert (H1 : Stat.corr xs ys * Stat.corr xs ys <= 1).
  { rewrite Hsq. apply (Rmult_le_reg_r (Stat.var xs * Stat.var ys));
      [assumption |].
    unfold Rdiv. rewrite Rmult_assoc, Rinv_l by lra. lra. }
  nra.
Qed.

Lemma corrcoef_Fin (xs ys : list R) :
  (2 <= length xs)%nat -> length ys = length xs ->
  Stat.var xs <> 0 -> Stat.var ys <> 0 ->
  corrcoef01 (map Fin xs) (map Fin ys) = Fin (Stat.corr xs ys).
Proof.
  intros Hn Hlen Hvx Hvy.
  pose proof (stat_var_nonneg xs Hn) as Hx.
  pose proof (stat_var_nonneg ys ltac:(lia)) as Hy.
  destruct (corr_bounds xs ys Hn Hlen Hvx Hvy) as [[Hlo Hhi] _].
  unfold corrcoef01.
  change (cov_entry (map Fin xs) (map Fin ys) 1)
    with (cov01 (map Fin xs) (map Fin ys) 1).
  change (cov_entry (map Fin xs) (map Fin xs) 1)
    with (cov01 (map Fin xs) (map Fin xs) 1).
  change (cov_entry (map Fin ys) (map Fin ys) 1)
    with (cov01 (map Fin ys) (map Fin ys) 1).
  rewrite !cov_Fin by lia. rewrite !stat_cov_diag.
  rewrite !fsqrt_Fin by assumption.
  rewrite fdiv_Fin by (apply Rgt_not_eq, sqrt_lt_R0; lra).
  rewrite fdiv_Fin by (apply Rgt_not_eq, sqrt_lt_R0; lra).
  fold (Stat.corr xs ys). unfold clip. simpl.
  now rewrite Rmax_left, Rmin_left by lra.
Qed.

Lemma sweep_step_Fin (s : list R) (r T k : R) :
  sweep_step (map Fin s) (Fin r) (Fin T) (Fin k)
  = (corrcoef01 (map Fin (map (fun si => exp (- (r * T)) * si) s))
                (map Fin (map (discounted_call k r T) s)),
     fsquare (corrcoef01 (map Fin (map (fun si => exp (- (r * T)) * si) s))
                         (map Fin (map (discounted_call k r T) s)))).
Proof.
  unfold sweep_step.
  assert (Hx : map (fun v => fmul (fexp (fmul (fopp (Fin r)) (Fin T))) v)
                   (map Fin s)
               = map Fin (map (fun si => exp (- (r * T)) * si) s)).
  { rewrite !map_map. apply map_ext. intros v. simpl. do 2 f_equal.
    f_equal. ring. }
  assert (Hy : map (fun p => fmul (fexp (fmul (fopp (Fin r)) (Fin T))) p)
                   (map (fun v => fmaximum (fsub v (Fin k)) (Fin 0))
                        (map Fin s))
               = map Fin (map (discounted_call k r T) s)).
  { rewrite !map_map. apply map_ext. intros v.
    apply (discounted_payoff_Fin k r T v). }
  now rewrite Hx, Hy.
Qed.

(** The sensitivity cell runs the loop on the sample it draws and on the
    grid of strikes. *)
Lemma sensitivity_cell_run (g : Generator) :
  sensitivity_cell g
  = Ok (sweep
          (map (fun x => terminal_price (Fin 50) (Fin 0.05) (Fin 0.3)
                           (Fin 0.25) (Fin x))
               (take_normals (normals g) (position g) (Z.to_nat 200000)))
          (Fin 0.05) (Fin 0.25) strikes,
        advance g (Z.to_nat 200000)).
Proof.
  unfold sensitivity_cell, terminal_stockprice, bind.
  rewrite standard_normal_nonneg by lia.
  unfold ret. rewrite !map_map. reflexivity.
Qed.

Lemma stat_mean_const (c : R) (l : list R) :
  (1 <= length l)%nat -> Forall (fun v => v = c) l -> Stat.mean l = c.
Proof.
  intros Hn Hall. unfold Stat.mean. rewrite (stat_sum_const c) by assumption.
  field. pose proof (INR_length_pos _ l Hn). lra.
Qed.

Lemma Forall_combine_r (A B : Type) (P : B -> Prop) (l : list A)
  (l' : list B) :
  Forall P l' -> Forall (fun p => P (snd p)) (combine l l').
Proof.
  intros H. revert l. induction H as [| b l' Hb _ IH]; intros [| a l]; simpl;
    constructor; auto.
Qed.

Lemma stat_cov_const_r (c : R) (xs ys : list R) :
  (1 <= length ys)%nat -> Forall (fun v => v = c) ys -> Stat.cov xs ys = 0.
Proof.
  intros Hn Hall. unfold Stat.cov.
  rewrite (stat_mean_const c ys) by assumption.
  rewrite sum_map_zero; [unfold Rdiv; lra |].
  apply (Forall_combine_r _ _ (fun v => v = c)) with (l := xs) in Hall.
  eapply Forall_impl; [| exact Hall]. intros p Hp. simpl in Hp.
  rewrite Hp. lra.
Qed.

(** When the payoffs are all equal the correlation is [0 / 0]. *)
Lemma corrcoef_constant_payoffs (c : R) (xs ys : list R) :
  (2 <= length xs)%nat -> length ys = length xs ->
  Forall (fun v => v = c) ys ->
  corrcoef01 (map Fin xs) (map Fin ys) = NaN.
Proof.
  intros Hn Hlen Hall. unfold corrcoef01.
  change (cov_entry (map Fin xs) (map Fin ys) 1)
    with (cov01 (map Fin xs) (map Fin ys) 1).
  change (cov_entry (map Fin xs) (map Fin xs) 1)
    with (cov01 (map Fin xs) (map Fin xs) 1).
  change (cov_entry (map Fin ys) (map Fin ys) 1)
    with (cov01 (map Fin ys) (map Fin ys) 1).
  rewrite !cov_Fin by lia.
  rewrite !(stat_cov_const_r c _ ys) by (assumption || lia).
  rewrite stat_cov_diag.
  rewrite (fsqrt_Fin (Stat.var xs)) by (now apply stat_var_nonneg).
  rewrite fsqrt_Fin, sqrt_0 by lra.
  assert (H : fdiv (Fin 0) (Fin (sqrt (Stat.var xs))) = Fin 0
              \/ fdiv (Fin 0) (Fin (sqrt (Stat.var xs))) = NaN).
  { unfold fdiv. destruct (Req_dec_T (sqrt (Stat.var xs)) 0).
    - right. unfold sign_times. destruct (Rlt_dec 0 0); [lra | reflexivity].
    - left. f_equal. unfold Rdiv. lra. }
  rewrite (fdiv_by_zero_of_zero _ H). reflexivity.
Qed.

Lemma last_strike : In (Fin 80) strikes.
Proof.
  unfold strikes, linspace. apply in_or_app. right. left. reflexivity.
Qed.

(** The claim of C8 fails at a strike that no price of the sample exceeds:
    with the prices 50 and 60 and the last strike of the grid, 80, every
    payoff is zero and [rho_squared] is [nan], which is in no interval. *)
Lemma sweep_rho_squared_nan :
  In (Fin 80) strikes
  /\ sweep [Fin 50; Fin 60] (Fin 0.05) (Fin 0.25) [Fin 80] = [(NaN, NaN)]
  /\ ~ in_unit_interval NaN.
Proof.
  split; [apply last_strike |]. split; [| unfold in_unit_interval; simpl; tauto].
  change (sweep [Fin 50; Fin 60] (Fin 0.05) (Fin 0.25) [Fin 80])
    with [sweep_step (map Fin [50; 60]) (Fin 0.05) (Fin 0.25) (Fin 80)].
  rewrite (sweep_step_Fin [50; 60] 0.05 0.25 80).
  rewrite (corrcoef_constant_payoffs 0); try reflexivity.
  cbn [map]. unfold discounted_call.
  repeat constructor; rewrite Rmax_right by lra; lra.
Qed.

(** ** The theorems at work on concrete inputs *)

Lemma stat_var_pair (a b : R) : a <> b -> Stat.var [a; b] <> 0.
Proof.
  intros Hab.
  assert (H : Stat.var [a; b] = (a - b) * (a - b) / 2)
    by (unfold Stat.var, Stat.mean, Stat.sum; simpl; field).
  rewrite H. intros H0. apply Hab. nra.
Qed.

Lemma control_variance_pair (S0 r sigma T x0 x1 : R) :
  0 < S0 -> 0 < sigma -> 0 < T -> x0 < x1 ->
  Stat.var (map (fun si => exp (- (r * T)) * si)
              (map (gbm_terminal S0 r sigma T) [x0; x1])) <> 0.
Proof.
  intros HS Hs HT Hx. cbn [map]. apply stat_var_pair.
  assert (He : 0 < exp (- (r * T))) by apply exp_pos.
  assert (Hq : 0 < sqrt T) by now apply sqrt_lt_R0.
  assert (Hlt : gbm_terminal S0 r sigma T x0 < gbm_terminal S0 r sigma T x1).
  { unfold gbm_terminal. apply Rmult_lt_compat_l; [assumption |].
    apply exp_increasing. assert (0 < sigma * sqrt T) by nra. nra. }
  nra.
Qed.

Lemma bs_call_mc_estimate_witness :
  0 <= 0.25 /\ (2 <= 2)%nat /\
  exists price stderr : R,
    bs_call_mc affine_ppf (Fin 50) (Fin 50) (Fin 0.25) (Fin 0.05) (Fin 0.3)
               2 (Fin 0.05) ramp_stream
    = Ok ((Fin price, Fin stderr,
           fsub (Fin price)
                (fmul (affine_ppf (Fin (1 - 0.05 / 2))) (Fin stderr)),
           fadd (Fin price)
                (fmul (affine_ppf (Fin (1 - 0.05 / 2))) (Fin stderr))),
          advance ramp_stream 2).
Proof.
  split; [lra |]. split; [lia |]. do 2 eexists.
  apply (proj2 bs_call_mc_estimate affine_ppf 50 50 0.25 0.05 0.3 0.05
               2%nat ramp_stream); [lra | lia].
Defined.

Lemma bs_call_cv_estimate_witness :
  0 <= 0.25 /\ (2 <= 2)%nat /\
  exists (price stderr : R) (rho_squared : float64),
    bs_call_cv affine_ppf (Fin 50) (Fin 50) (Fin 0.25) (Fin 0.05) (Fin 0.3)
               2 (Fin 0.05) ramp_stream
    = Ok ((Fin price, Fin stderr,
           fsub (Fin price)
                (fmul (affine_ppf (Fin (1 - 0.05 / 2))) (Fin stderr)),
           fadd (Fin price)
                (fmul (affine_ppf (Fin (1 - 0.05 / 2))) (Fin stderr)),
           rho_squared),
          advance ramp_stream 2).
Proof.
  split; [lra |]. split; [lia |].
  destruct (proj2 bs_call_cv_estimate affine_ppf 50 50 0.25 0.05 0.3 0.05
                  2%nat ramp_stream) as (rho_squared & Hrun & _).
  - lra.
  - lia.
  - apply (control_variance_pair 50 0.05 0.3 0.25 0 1); lra.
  - do 2 eexists. exists rho_squared. exact Hrun.
Defined.

Lemma bs_call_av_estimate_witness :
  0 <= 0.25 /\ (1 <= 2)%nat /\
  exists (price stderr : R) (possible_reduction : float64),
    bs_call_av affine_ppf (Fin 50) (Fin 50) (Fin 0.25) (Fin 0.05) (Fin 0.3)
               2 (Fin 0.05) ramp_stream
    = Ok ((Fin price, Fin stderr,
           fsub (Fin price)
                (fmul (affine_ppf (Fin (1 - 0.05 / 2))) (Fin stderr)),
           fadd (Fin price)
                (fmul (affine_ppf (Fin (1 - 0.05 / 2))) (Fin stderr)),
           possible_reduction),
          advance ramp_stream 2).
Proof.
  split; [lra |]. split; [lia |].
  destruct (proj2 bs_call_av_estimate affine_ppf 50 50 0.25 0.05 0.3 0.05
                  2%nat ramp_stream) as (possible_reduction & Hrun & _).
  - lra.
  - lia.
  - do 2 eexists. exists possible_reduction. exact Hrun.
Defined.

Lemma bs_call_cv_degenerate_control_witness :
  bs_call_cv affine_ppf (Fin 50) (Fin 50) (Fin 0.25) (Fin 0.05) (Fin 0)
             2 (Fin 0.05) ramp_stream
  = Ok ((NaN, NaN, NaN, NaN, NaN), advance ramp_stream 2).
Proof.
  apply (bs_call_cv_degenerate_control affine_ppf (Fin 50) (Fin 50)
           (Fin 0.25) (Fin 0.05) (Fin 0) (Fin 0.05) 2 ramp_stream).
  apply control_variance_no_volatility; [lra | lia].
Defined.



(** ** Sums and statistics of real samples *)



Lemma combine_swap (A B C : Type) (f : A -> B -> C) (l : list A)
  (l' : list B) :
  map (fun p => f (fst p) (snd p)) (combine l l')
  = map (fun p => f (snd p) (fst p)) (combine l' l).
Proof.
  revert l'. induction l as [| a l IH]; intros [| b l']; simpl;
    try reflexivity.
  now rewrite IH.
Qed.

Lemma stat_cov_sym (xs ys : list R) :
  length ys = length xs -> Stat.cov xs ys = Stat.cov ys xs.
Proof.
  intros Hlen. unfold Stat.cov. rewrite Hlen. f_equal.
  rewrite (combine_swap _ _ _
             (fun a b => (a - Stat.mean xs) * (b - Stat.mean ys)) xs ys).
  f_equal. apply map_ext. intros p. simpl. ring.
Qed.

(** ** The estimators on finite parameters *)

Ltac sample_length :=
  rewrite ?length_map, ?length_combine, ?length_app, ?length_map,
    ?length_take_normals, ?Nat.min_id; try lia.


(** ** The correlation on degenerate samples *)

Lemma sum_squares_zero (l : list R) :
  Stat.sum (map (fun u => u * u) l) = 0 -> Forall (fun u => u = 0) l.
Proof.
  induction l as [| u l IH]; intros H; [constructor |].
  change (u * u + Stat.sum (map (fun u => u * u) l) = 0) in H.
  pose proof (sum_squares_nonneg l) as Hl.
  assert (u = 0 /\ Stat.sum (map (fun u => u * u) l) = 0) as [Hu Hs] by nra.
  constructor; auto.
Qed.

Lemma stat_var_zero_constant (l : list R) :
  (2 <= length l)%nat -> Stat.var l = 0 ->
  Forall (fun v => v = Stat.mean l) l.
Proof.
  intros Hn Hv. rewrite stat_var_centred in Hv.
  pose proof (le_INR _ _ Hn) as H2. simpl in H2.
  assert (Hs : Stat.sum (map (fun u => u * u)
                           (map (fun v => v - Stat.mean l) l)) = 0).
  { apply (Rmult_eq_compat_r (INR (length l) - 1)) in Hv.
    unfold Rdiv in Hv. rewrite Rmult_assoc, Rinv_l in Hv by lra. lra. }
  apply sum_squares_zero in Hs. rewrite Forall_map in Hs.
  eapply Forall_impl; [| exact Hs]. intros v Hd. simpl in Hd. lra.
Qed.

Lemma fdiv_one_zero : fdiv (Fin 1) (Fin 0) = PInf.
Proof.
  unfold fdiv, sign_times.
  destruct (Req_dec_T 0 0) as [_ | H]; [| now elim H].
  destruct (Rlt_dec 0 1) as [_ | H]; [reflexivity | lra].
Qed.

Lemma fmul_zero_inf : fmul (Fin 0) PInf = NaN.
Proof.
  unfold fmul, sign_times. destruct (Rlt_dec 0 0) as [H | _]; [lra |].
  reflexivity.
Qed.

Lemma cov_entry_short (xs ys : list R) :
  (length xs < 2)%nat -> length ys = length xs ->
  cov_entry (map Fin xs) (map Fin ys) 1 = NaN.
Proof.
  intros Hn Hlen.
  destruct xs as [| a [| a' xs]]; [| | simpl in Hn; lia].
  - destruct ys; [| discriminate].
    change (cov_entry (map Fin []) (map Fin []) 1)
      with (fmul (Fin 0) (fdiv (Fin 1) (Fin 0))).
    now rewrite fdiv_one_zero, fmul_zero_inf.
  - destruct ys as [| b [| b' ys]]; try discriminate.
    unfold cov_entry. rewrite !mean_Fin by (simpl; lia).
    rewrite !centre_Fin, dot_Fin.
    change (of_Z (if (Z.of_nat (length (map Fin [a])) - 1 <=? 0)%Z
                  then 0%Z else (Z.of_nat (length (map Fin [a])) - 1)%Z))
      with (Fin 0).
    rewrite fdiv_one_zero.
    replace (Stat.sum _) with 0;
      [apply fmul_zero_inf |].
    unfold Stat.sum, Stat.mean, Stat.sum. simpl. field.
Qed.

Lemma corrcoef_short (xs ys : list R) :
  (length xs < 2)%nat -> length ys = length xs ->
  corrcoef01 (map Fin xs) (map Fin ys) = NaN.
Proof.
  intros Hn Hlen. unfold corrcoef01.
  now rewrite (cov_entry_short xs ys Hn Hlen).
Qed.

(** When the control is constant the correlation is [0 / 0]. *)
Lemma corrcoef_constant_control (c : R) (xs ys : list R) :
  (2 <= length xs)%nat -> length ys = length xs ->
  Forall (fun v => v = c) xs ->
  corrcoef01 (map Fin xs) (map Fin ys) = NaN.
Proof.
  intros Hn Hlen Hall. unfold corrcoef01.
  change (cov_entry (map Fin xs) (map Fin ys) 1)
    with (cov01 (map Fin xs) (map Fin ys) 1).
  change (cov_entry (map Fin xs) (map Fin xs) 1)
    with (cov01 (map Fin xs) (map Fin xs) 1).
  rewrite !cov_Fin by lia.
  rewrite (stat_cov_sym xs ys) by assumption.
  rewrite !(stat_cov_const_r c _ xs) by (assumption || lia).
  rewrite fsqrt_Fin, sqrt_0 by lra. now rewrite fdiv_zero_zero.
Qed.


(** ** Exceptions and the use of the stream *)

Lemma take_normals_app (f : nat -> R) (p n m : nat) :
  take_normals f p (n + m)
  = take_normals f p n ++ take_normals f (p + n) m.
Proof.
  revert p. induction n as [| n IH]; intros p; simpl.
  - now rewrite Nat.add_0_r.
  - rewrite IH. now rewrite Nat.add_succ_r.
Qed.

Lemma advance_advance (g : Generator) (n m : nat) :
  advance (advance g n) m = advance g (n + m).
Proof. unfold advance. simpl. now rewrite Nat.add_assoc. Qed.

(** Two calls of the sampler in a row on one generator give, put together,
    the prices that one call for the total number gives: the second call
    goes on in the stream where the first one stopped, and the generator
    ends in the same state. *)
Theorem terminal_stockprice_in_two_batches
  (S0 T r sigma : float64) (n m : nat) (g : Generator) :
  (first <- terminal_stockprice S0 T r sigma (Z.of_nat n) ;;
   second <- terminal_stockprice S0 T r sigma (Z.of_nat m) ;;
   ret (first ++ second)) g
  = terminal_stockprice S0 T r sigma (Z.of_nat (n + m)) g.
Proof.
  unfold bind at 1. rewrite terminal_stockprice_run.
  unfold bind at 1. rewrite terminal_stockprice_run.
  rewrite terminal_stockprice_run. unfold ret.
  rewrite advance_advance, take_normals_app, map_app. reflexivity.
Qed.

(** ** The plain price as a function of the strike *)





(** ** Values that are [nan] or not negative *)


Lemma fexp_nonneg (a : float64) : nonneg_or_nan (fexp a).
Proof.
  destruct a as [x | | |]; simpl; try (now left); right; simpl;
    [left; apply exp_pos | exact I | lra].
Qed.

Lemma fmaximum_zero_nonneg (a : float64) : nonneg_or_nan (fmaximum a (Fin 0)).
Proof.
  destruct a as [x | | |]; simpl; try (now left); right; simpl;
    [apply Rmax_r | exact I | lra].
Qed.

Lemma fle_zero_cases (a : float64) :
  fle (Fin 0) a -> (exists x : R, a = Fin x /\ 0 <= x) \/ a = PInf.
Proof. destruct a as [x | | |]; simpl; intros H; eauto; contradiction. Qed.

Lemma sign_times_nonneg (x : R) :
  0 <= x -> nonneg_or_nan (sign_times x PInf).
Proof.
  intros Hx. unfold sign_times. destruct (Rlt_dec 0 x); [now right |].
  destruct (Rlt_dec x 0); [lra | now left].
Qed.

Lemma fmul_nonneg (a b : float64) :
  fle (Fin 0) a -> fle (Fin 0) b -> nonneg_or_nan (fmul a b).
Proof.
  intros Ha Hb.
  destruct (fle_zero_cases a Ha) as [(x & -> & Hx) | ->],
           (fle_zero_cases b Hb) as [(y & -> & Hy) | ->]; simpl.
  - right. simpl. now apply Rmult_le_pos.
  - now apply sign_times_nonneg.
  - now apply sign_times_nonneg.
  - now right.
Qed.

Lemma fdiv_nonneg (a b : float64) :
  fle (Fin 0) a -> fle (Fin 0) b -> nonneg_or_nan (fdiv a b).
Proof.
  intros Ha Hb.
  destruct (fle_zero_cases a Ha) as [(x & -> & Hx) | ->],
           (fle_zero_cases b Hb) as [(y & -> & Hy) | ->]; simpl.
  - destruct (Req_dec_T y 0) as [Hy0 | Hy0]; [now apply sign_times_nonneg |].
    right. simpl. apply Rmult_le_pos; [assumption |].
    left. apply Rinv_0_lt_compat. lra.
  - right. simpl. lra.
  - destruct (Rlt_dec y 0); [lra | now right].
  - now left.
Qed.

Lemma nonneg_not_nan (a : float64) :
  nonneg_or_nan a -> a <> NaN -> fle (Fin 0) a.
Proof. intros [H | H] Hn; [contradiction | assumption]. Qed.

(** ** The order of the bounds *)








(** ** The range of the squared correlation *)

Lemma sweep_step_cases (s : list R) (r T k : R) :
  let x := map (fun si => exp (- (r * T)) * si) s in
  let y := map (discounted_call k r T) s in
  (((length s < 2)%nat \/ Stat.var x = 0 \/ Stat.var y = 0)
   /\ sweep_step (map Fin s) (Fin r) (Fin T) (Fin k) = (NaN, NaN))
  \/ (((2 <= length s)%nat /\ Stat.var x <> 0 /\ Stat.var y <> 0)
      /\ exists c : R,
           sweep_step (map Fin s) (Fin r) (Fin T) (Fin k)
           = (Fin c, Fin (c * c))
           /\ 0 <= c * c <= 1).
Proof.
  intros x y. rewrite sweep_step_Fin. fold x. fold y.
  assert (Hlx : length x = length s) by (unfold x; sample_length).
  assert (Hly : length y = length x) by (unfold y, x; sample_length).
  destruct (Nat.lt_ge_cases (length s) 2) as [Hn | Hn].
  { left. rewrite corrcoef_short by lia. auto. }
  destruct (Req_dec (Stat.var x) 0) as [Hvx | Hvx].
  { left. rewrite (corrcoef_constant_control (Stat.mean x))
      by first [lia | apply stat_var_zero_constant; [lia | assumption]].
    auto. }
  destruct (Req_dec (Stat.var y) 0) as [Hvy | Hvy].
  { left. rewrite (corrcoef_constant_payoffs (Stat.mean y))
      by first [lia | apply stat_var_zero_constant; [lia | assumption]].
    auto. }
  right. split; [auto |].
  rewrite corrcoef_Fin by (assumption || lia).
  destruct (corr_bounds x y ltac:(lia) Hly Hvx Hvy) as [_ Hb].
  exists (Stat.corr x y). split; [reflexivity | assumption].
Qed.

Lemma payoffs_below_strike (k r T : R) (s : list R) :
  Forall (fun si => si <= k) s ->
  Forall (fun v => v = 0) (map (discounted_call k r T) s).
Proof.
  intros H. apply Forall_map. eapply Forall_impl; [| exact H].
  intros si Hsi. simpl in Hsi. unfold discounted_call.
  rewrite Rmax_right by lra. lra.
Qed.

(** C8, as amended.  On a fixed sample of finite prices, for every strike of
    the sweep, [rho_squared] is [nan] or lies in [0, 1]; it is [nan], and so
    is [rho], when the sample has fewer than two prices, and at every strike
    that no price of the sample exceeds, where every payoff is zero. *)
Theorem sweep_rho_squared_range (s : list R) (r T : R) (ks : list R) :
  Forall (fun out => snd out = NaN \/ in_unit_interval (snd out))
         (sweep (map Fin s) (Fin r) (Fin T) (map Fin ks))
  /\ (forall k, In k ks ->
        (length s < 2)%nat \/ Forall (fun si => si <= k) s ->
        sweep_step (map Fin s) (Fin r) (Fin T) (Fin k) = (NaN, NaN)).
Proof.
  split.
  - unfold sweep. rewrite map_map. apply Forall_map, Forall_forall.
    intros k _.
    destruct (sweep_step_cases s r T k) as [[_ ->] | [_ (c & -> & Hc)]];
      [now left | right; split; simpl; apply Hc].
  - intros k _ Hcase. rewrite sweep_step_Fin.
    destruct (Nat.lt_ge_cases (length s) 2) as [Hn | Hn].
    + rewrite corrcoef_short by sample_length. reflexivity.
    + destruct Hcase as [Hshort | Hall]; [lia |].
      assert (Hc := payoffs_below_strike k r T s Hall).
      rewrite (corrcoef_constant_payoffs 0) by (sample_length || assumption).
      reflexivity.
Qed.

(** ** The sign of the prices and of the payoffs *)

Lemma fmul_nonneg_or_nan (a b : float64) :
  fle (Fin 0) a -> nonneg_or_nan b -> nonneg_or_nan (fmul a b).
Proof.
  intros Ha [-> | Hb]; [left; apply fmul_NaN_r | now apply fmul_nonneg].
Qed.

Lemma terminal_price_nonneg (S0 r sigma T x : float64) :
  fle (Fin 0) S0 -> nonneg_or_nan (terminal_price S0 r sigma T x).
Proof.
  intros HS. unfold terminal_price.
  apply fmul_nonneg_or_nan; [assumption | apply fexp_nonneg].
Qed.

Lemma discounted_payoff_nonneg (K r T s : float64) :
  nonneg_or_nan (discounted_payoff K r T s).
Proof.
  unfold discounted_payoff.
  destruct (fexp_nonneg (fmul (fopp r) T)) as [-> | He]; [now left |].
  apply fmul_nonneg_or_nan; [assumption | apply fmaximum_zero_nonneg].
Qed.

Lemma terminal_stockprice_returns (S0 T r sigma : float64) (size : Z)
  (g g' : Generator) (prices : list float64) :
  terminal_stockprice S0 T r sigma size g = Ok (prices, g') ->
  prices = map (fun x => terminal_price S0 r sigma T (Fin x))
               (take_normals (normals g) (position g) (Z.to_nat size)).
Proof.
  intros H. destruct (Z.lt_ge_cases size 0) as [Hneg | Hpos].
  - unfold terminal_stockprice, bind in H.
    rewrite standard_normal_negative in H by assumption. discriminate.
  - pose proof (terminal_stockprice_run S0 T r sigma (Z.to_nat size) g)
      as Hrun.
    rewrite Z2Nat.id in Hrun by assumption. rewrite Hrun in H.
    injection H as H _. now symmetry.
Qed.

Lemma terminal_stockprice_av_returns (S0 T r sigma : float64) (size : Z)
  (g g' : Generator) (S1 S2 allprices : list float64) :
  terminal_stockprice_av S0 T r sigma size g = Ok ((S1, S2, allprices), g') ->
  let xs := take_normals (normals g) (position g) (Z.to_nat size) in
  S1 = map (fun x => terminal_price S0 r sigma T (Fin x)) xs
  /\ S2 = map (fun x => terminal_price S0 r sigma T (Fin (- x))) xs
  /\ allprices = S1 ++ S2.
Proof.
  intros H xs. destruct (Z.lt_ge_cases size 0) as [Hneg | Hpos].
  - unfold terminal_stockprice_av, bind in H.
    rewrite standard_normal_negative in H by assumption. discriminate.
  - pose proof (terminal_stockprice_av_run S0 T r sigma (Z.to_nat size) g)
      as Hrun.
    cbv zeta in Hrun. rewrite Z2Nat.id in Hrun by assumption.
    rewrite Hrun in H. injection H as H1 H2 H3 _.
    subst S1 S2 allprices. auto.
Qed.

(** C10, as amended.  For every [S0] that is not negative and all [r],
    [sigma], [T] and draws, every terminal price that the plain sampler
    returns, and every item of the two paired sequences and of the
    concatenated sequence that the antithetic sampler returns, is [nan] or
    not negative; with a negative maturity all of them are [nan]; and every
    discounted payoff [exp (- r T) max (S - K, 0)] is [nan] or not negative.
    That a price is strictly positive is not part of the statement: the
    exponential of the code can underflow to zero. *)
Theorem terminal_prices_nonneg_or_nan
  (S0 T r sigma : float64) (size : Z) (g : Generator) :
  fle (Fin 0) S0 ->
  (forall prices g',
     terminal_stockprice S0 T r sigma size g = Ok (prices, g') ->
     Forall nonneg_or_nan prices
     /\ (forall t : R, T = Fin t -> t < 0 ->
         Forall (fun p => p = NaN) prices))
  /\
  (forall S1 S2 allprices g',
     terminal_stockprice_av S0 T r sigma size g
     = Ok ((S1, S2, allprices), g') ->
     Forall nonneg_or_nan S1 /\ Forall nonneg_or_nan S2
     /\ Forall nonneg_or_nan allprices
     /\ (forall t : R, T = Fin t -> t < 0 ->
         Forall (fun p => p = NaN) allprices))
  /\
  (forall K r' T' s : float64, nonneg_or_nan (discounted_payoff K r' T' s)).
Proof.
  intros HS. split; [| split].
  - intros prices g' H. apply terminal_stockprice_returns in H as ->. split.
    + apply Forall_map, Forall_forall. intros x _.
      now apply terminal_price_nonneg.
    + intros t -> Ht. apply Forall_map, Forall_forall. intros x _.
      now apply terminal_price_negative_maturity.
  - intros S1 S2 allprices g' H.
    apply terminal_stockprice_av_returns in H as (H1 & H2 & H3).
    assert (N1 : Forall nonneg_or_nan S1).
    { rewrite H1. apply Forall_map, Forall_forall. intros x _.
      now apply terminal_price_nonneg. }
    assert (N2 : Forall nonneg_or_nan S2).
    { rewrite H2. apply Forall_map, Forall_forall. intros x _.
      now apply terminal_price_nonneg. }
    repeat split; try assumption.
    + rewrite H3. apply Forall_app. now split.
    + intros t -> Ht. rewrite H3, H1, H2. apply Forall_app.
      split; apply Forall_map, Forall_forall; intros x _;
        now apply terminal_price_negative_maturity.
  - intros. apply discounted_payoff_nonneg.
Qed.

(** ** The plain price and the strike *)

Lemma fsum_not_nan (l : list float64) :
  fsum l <> NaN -> Forall (fun v => v <> NaN) l.
Proof.
  induction l as [| a l IH]; intros H; [constructor |].
  change (fadd a (fsum l) <> NaN) in H. constructor.
  - intros ->. now apply H.
  - apply IH. intros E. apply H. rewrite E. apply fadd_NaN_r.
Qed.

Lemma mean_not_nan (l : list float64) :
  mean l <> NaN -> l <> [] /\ Forall (fun v => v <> NaN) l.
Proof.
  intros H. split.
  - intros ->. apply H.
    change (mean []) with (fdiv (Fin 0) (Fin 0)). apply fdiv_zero_zero.
  - apply fsum_not_nan. intros E. apply H. unfold mean. now rewrite E.
Qed.

Lemma fadd_monotone (b a sb sa : float64) :
  fle (Fin 0) b -> fle (Fin 0) sb -> fle b a -> fle sb sa ->
  fle (Fin 0) (fadd b sb) /\ fle (fadd b sb) (fadd a sa).
Proof.
  intros Hb Hsb Hba Hs.
  destruct (fle_zero_cases b Hb) as [(x & -> & Hx) | ->],
           (fle_zero_cases sb Hsb) as [(y & -> & Hy) | ->];
    destruct a as [u | | |], sa as [v | | |]; simpl in *;
    try contradiction; try (split; (lra || exact I)).
Qed.

Lemma fsum_monotone (A : Type) (f2 f1 : A -> float64) (l : list A) :
  Forall (fun s => fle (Fin 0) (f2 s) /\ fle (f2 s) (f1 s)) l ->
  fle (Fin 0) (fsum (map f2 l))
  /\ fle (fsum (map f2 l)) (fsum (map f1 l)).
Proof.
  induction 1 as [| s l [H0 H21] _ [IH0 IH]]; [simpl; split; lra |].
  change (fsum (map f2 (s :: l))) with (fadd (f2 s) (fsum (map f2 l))).
  change (fsum (map f1 (s :: l))) with (fadd (f1 s) (fsum (map f1 l))).
  now apply fadd_monotone.
Qed.

Lemma fdiv_monotone (b a : float64) (n : R) :
  0 < n -> fle (Fin 0) b -> fle b a ->
  fle (fdiv b (Fin n)) (fdiv a (Fin n)).
Proof.
  intros Hn Hb Hba.
  destruct (fle_zero_cases b Hb) as [(x & -> & Hx) | ->];
    destruct a as [u | | |]; simpl in *; try contradiction.
  - destruct (Req_dec_T n 0); [lra |]. simpl.
    apply Rmult_le_compat_r; [| assumption].
    left. now apply Rinv_0_lt_compat.
  - destruct (Req_dec_T n 0); [lra |].
    destruct (Rlt_dec n 0); [lra | exact I].
  - destruct (Rlt_dec n 0); [lra | exact I].
Qed.

(** One payoff at two strikes *)
Lemma discounted_payoff_strike (K1 K2 : R) (r T s : float64) :
  K1 <= K2 ->
  discounted_payoff (Fin K1) r T s <> NaN ->
  discounted_payoff (Fin K2) r T s <> NaN ->
  fle (Fin 0) (discounted_payoff (Fin K2) r T s)
  /\ fle (discounted_payoff (Fin K2) r T s)
         (discounted_payoff (Fin K1) r T s).
Proof.
  intros HK H1 H2.
  pose proof (nonneg_not_nan _ (discounted_payoff_nonneg (Fin K2) r T s) H2)
    as Hpos.
  split; [assumption |]. unfold discounted_payoff in *.
  set (E := fexp (fmul (fopp r) T)) in *.
  assert (HE : fle (Fin 0) E).
  { apply nonneg_not_nan; [apply fexp_nonneg |]. intros Hn.
    apply H1. now rewrite Hn. }
  destruct s as [x | | |].
  - change (fmaximum (fsub (Fin x) (Fin K1)) (Fin 0))
      with (Fin (Rmax (x - K1) 0)) in *.
    change (fmaximum (fsub (Fin x) (Fin K2)) (Fin 0))
      with (Fin (Rmax (x - K2) 0)) in *.
    assert (Hm : 0 <= Rmax (x - K2) 0 <= Rmax (x - K1) 0).
    { split; [apply Rmax_r |]. unfold Rmax.
      destruct (Rle_dec (x - K2) 0), (Rle_dec (x - K1) 0); lra. }
    destruct (fle_zero_cases E HE) as [(e & -> & He) | ->]; simpl in *.
    + now apply Rmult_le_compat_l.
    + unfold sign_times in *.
      destruct (Rlt_dec 0 (Rmax (x - K2) 0)) as [H | H].
      * destruct (Rlt_dec 0 (Rmax (x - K1) 0)); [exact I | lra].
      * destruct (Rlt_dec (Rmax (x - K2) 0) 0); [lra | now elim H2].
  - change (fmaximum (fsub PInf (Fin K1)) (Fin 0)) with PInf in *.
    change (fmaximum (fsub PInf (Fin K2)) (Fin 0)) with PInf in *.
    destruct (fmul E PInf); simpl in *; try lra; tauto.
  - change (fmaximum (fsub NInf (Fin K1)) (Fin 0)) with (Fin 0) in *.
    change (fmaximum (fsub NInf (Fin K2)) (Fin 0)) with (Fin 0) in *.
    destruct (fmul E (Fin 0)); simpl in *; try lra; tauto.
  - exfalso. apply H1. apply fmul_NaN_r.
Qed.

Lemma bs_call_mc_returns_price (ppf : float64 -> float64)
  (S0 K T r sigma eps : float64) (size : Z) (g g' : Generator)
  (price stderr ci_low ci_high : float64) :
  bs_call_mc ppf S0 K T r sigma size eps g
  = Ok ((price, stderr, ci_low, ci_high), g') ->
  price = mean (map (discounted_payoff K r T)
                  (map (fun x => terminal_price S0 r sigma T (Fin x))
                     (take_normals (normals g) (position g)
                        (Z.to_nat size)))).
Proof.
  intros H. destruct (Z.lt_ge_cases size 0) as [Hneg | Hpos].
  - unfold bs_call_mc, terminal_stockprice, bind in H.
    rewrite standard_normal_negative in H by assumption. discriminate.
  - pose proof (bs_call_mc_run ppf S0 K T r sigma eps (Z.to_nat size) g)
      as Hrun.
    rewrite Z2Nat.id in Hrun by assumption. rewrite Hrun in H.
    exact (eq_sym (f_equal (fun res =>
                              match res with
                              | Ok (t, _) => fst (fst (fst t))
                              | Raise _ => NaN
                              end) H)).
Qed.

(** On one generator, when the plain estimator returns a price that is not
    [nan] at each of two strikes [K1 <= K2], the price at [K2] is at most the
    price at [K1]: the price does not increase with the strike. *)
Theorem bs_call_mc_price_decreases_with_strike
  (ppf : float64 -> float64) (S0 T r sigma eps : float64) (K1 K2 : R)
  (size : Z) (g g1 g2 : Generator)
  (price1 se1 lo1 hi1 price2 se2 lo2 hi2 : float64) :
  K1 <= K2 ->
  bs_call_mc ppf S0 (Fin K1) T r sigma size eps g
  = Ok ((price1, se1, lo1, hi1), g1) ->
  bs_call_mc ppf S0 (Fin K2) T r sigma size eps g
  = Ok ((price2, se2, lo2, hi2), g2) ->
  price1 <> NaN -> price2 <> NaN ->
  fle price2 price1.
Proof.
  intros HK H1 H2 N1 N2.
  apply bs_call_mc_returns_price in H1, H2. subst price1 price2.
  set (S := map _ (take_normals _ _ _)) in *.
  destruct (mean_not_nan _ N1) as [Hne F1].
  destruct (mean_not_nan _ N2) as [_ F2].
  rewrite Forall_map in F1, F2.
  assert (Hall : Forall (fun s =>
                           fle (Fin 0) (discounted_payoff (Fin K2) r T s)
                           /\ fle (discounted_payoff (Fin K2) r T s)
                                  (discounted_payoff (Fin K1) r T s)) S).
  { rewrite Forall_forall in *. intros s Hs.
    apply discounted_payoff_strike; auto. }
  destruct (fsum_monotone _ _ _ S Hall) as [Hpos Hle].
  unfold mean, of_Z, NP.size. rewrite !length_map.
  apply fdiv_monotone; try assumption.
  apply IZR_lt. destruct S; [now elim Hne | simpl; lia].
Qed.

(** ** Samples too small for the control and for the antithetic pairs *)

Lemma var_empty : var [] 1 = NaN.
Proof.
  change (var [] 1) with (fdiv (Fin 0) (Fin 0)). apply fdiv_zero_zero.
Qed.

Lemma var_singleton (y : float64) : var [y] 1 = NaN.
Proof.
  change (var [y] 1)
    with (fdiv (fadd (fmul (fsub y (fdiv (fadd y (Fin 0)) (Fin 1)))
                           (fsub y (fdiv (fadd y (Fin 0)) (Fin 1))))
                     (Fin 0))
               (Fin 0)).
  destruct y as [v | | |].
  - change (fadd (Fin v) (Fin 0)) with (Fin (v + 0)).
    rewrite fdiv_Fin by lra.
    change (fadd (fmul (fsub (Fin v) (Fin ((v + 0) / 1)))
                       (fsub (Fin v) (Fin ((v + 0) / 1)))) (Fin 0))
      with (Fin ((v - (v + 0) / 1) * (v - (v + 0) / 1) + 0)).
    replace ((v - (v + 0) / 1) * (v - (v + 0) / 1) + 0) with 0
      by (field_simplify; lra).
    apply fdiv_zero_zero.
  - change (fadd PInf (Fin 0)) with PInf.
    rewrite fdiv_inf_one by (simpl; tauto). reflexivity.
  - change (fadd NInf (Fin 0)) with NInf.
    rewrite fdiv_inf_one by (simpl; tauto). reflexivity.
  - reflexivity.
Qed.

Lemma var_short (Y : list float64) : (length Y < 2)%nat -> var Y 1 = NaN.
Proof.
  destruct Y as [| y [| y' Y]]; simpl; intros H;
    [apply var_empty | apply var_singleton | lia].
Qed.

Lemma mean_empty : mean [] = NaN.
Proof.
  change (mean []) with (fdiv (Fin 0) (Fin 0)). apply fdiv_zero_zero.
Qed.

Lemma gaussian_summary_empty (ppf : float64 -> float64) (n : Z)
  (eps : float64) :
  gaussian_summary ppf [] n eps = (NaN, NaN, NaN, NaN).
Proof. now rewrite gaussian_summary_std_nan, mean_empty by apply std_empty. Qed.

Lemma bs_call_cv_short_run
  (ppf : float64 -> float64) (S0 K T r sigma eps : float64) (n : nat)
  (g : Generator) :
  (n < 2)%nat ->
  bs_call_cv ppf S0 K T r sigma (Z.of_nat n) eps g
  = Ok ((NaN, NaN, NaN, NaN, NaN), advance g n).
Proof.
  intros Hsize.
  pose proof (bs_call_cv_run ppf S0 K T r sigma eps n g) as Hrun.
  cbv zeta in Hrun. rewrite Hrun.
  set (S := map _ (take_normals _ _ _)).
  assert (Hl : (length S < 2)%nat) by (unfold S; sample_length).
  rewrite (var_short (map (discounted_stock r T) S)) by sample_length.
  rewrite fdiv_NaN_r. change (fmul NaN ?v) with NaN. rewrite fdiv_NaN_r.
  destruct S as [| s0 S'].
  - change (adjusted NaN S0 (map _ []) (map _ [])) with (@nil float64).
    now rewrite gaussian_summary_empty.
  - rewrite gaussian_summary_nan; [reflexivity | discriminate |].
    apply adjusted_nan.
Qed.

(** Whenever the control-variate estimator returns on a sample size below 2,
    all it returns is [nan]: the price, the standard error, the two bounds
    and [rho_squared].  The variance of a control of fewer than two
    observations, with [ddof = 1], is [nan], and so is the coefficient
    [b*]. *)
Theorem bs_call_cv_small_sample
  (ppf : float64 -> float64) (S0 K T r sigma eps : float64) (samplesize : Z)
  (g g' : Generator)
  (res : float64 * float64 * float64 * float64 * float64) :
  (samplesize < 2)%Z ->
  bs_call_cv ppf S0 K T r sigma samplesize eps g = Ok (res, g') ->
  res = (NaN, NaN, NaN, NaN, NaN).
Proof.
  intros Hsize H. destruct (Z.lt_ge_cases samplesize 0) as [Hneg | Hpos].
  - unfold bs_call_cv, terminal_stockprice, bind in H.
    rewrite standard_normal_negative in H by assumption. discriminate.
  - rewrite <- (Z2Nat.id samplesize), bs_call_cv_short_run in H by lia.
    injection H as H _. now symmetry.
Qed.

Lemma centre_singleton (a : float64) :
  fsub a (mean [a]) = Fin 0 \/ fsub a (mean [a]) = NaN.
Proof.
  change (mean [a]) with (fdiv (fadd a (Fin 0)) (Fin 1)).
  destruct a as [v | | |].
  - left. change (fadd (Fin v) (Fin 0)) with (Fin (v + 0)).
    rewrite fdiv_Fin by lra. simpl. f_equal. field.
  - right. change (fadd PInf (Fin 0)) with PInf.
    now rewrite fdiv_inf_one by (simpl; tauto).
  - right. change (fadd NInf (Fin 0)) with NInf.
    now rewrite fdiv_inf_one by (simpl; tauto).
  - now right.
Qed.

Lemma cov_entry_empty : cov_entry [] [] 1 = NaN.
Proof.
  change (cov_entry [] [] 1) with (fmul (Fin 0) (fdiv (Fin 1) (Fin 0))).
  now rewrite fdiv_one_zero, fmul_zero_inf.
Qed.

Lemma cov_entry_singleton (a b : float64) : cov_entry [a] [b] 1 = NaN.
Proof.
  change (cov_entry [a] [b] 1)
    with (fmul (fadd (fmul (fsub a (mean [a])) (fsub b (mean [b]))) (Fin 0))
               (fdiv (Fin 1) (Fin 0))).
  rewrite fdiv_one_zero.
  destruct (centre_singleton a) as [-> | ->],
           (centre_singleton b) as [-> | ->];
    try reflexivity.
  change (fadd (fmul (Fin 0) (Fin 0)) (Fin 0)) with (Fin (0 * 0 + 0)).
  replace (0 * 0 + 0) with 0 by ring. apply fmul_zero_inf.
Qed.

Lemma bs_call_av_short_run
  (ppf : float64 -> float64) (S0 K T r sigma eps : float64) (n : nat)
  (g : Generator) :
  (n < 2)%nat ->
  exists res : float64 * float64 * float64 * float64,
    bs_call_av ppf S0 K T r sigma (Z.of_nat n) eps g
    = Ok ((res, NaN), advance g n)
    /\ (n = 0%nat -> res = (NaN, NaN, NaN, NaN)).
Proof.
  intros Hsize. rewrite bs_call_av_run. unfold cov01.
  destruct n as [| [| n]]; [| | lia].
  - cbn [take_normals map app]. rewrite cov_entry_empty.
    eexists. split; [reflexivity |]. intros _. apply gaussian_summary_empty.
  - cbn [take_normals map app]. rewrite cov_entry_singleton.
    eexists. split; [reflexivity |]. discriminate.
Qed.

(** Whenever the antithetic estimator returns on a half size below 2, its
    diagnostic [possible_reduction] is [nan]: the covariance, with
    [ddof = 1], of two halves of at most one observation each is [nan].  On
    a half size of 0 the price, the standard error and the two bounds are
    [nan] as well. *)
Theorem bs_call_av_small_sample
  (ppf : float64 -> float64) (S0 K T r sigma eps : float64)
  (halfsamplesize : Z) (g g' : Generator)
  (res : float64 * float64 * float64 * float64)
  (possible_reduction : float64) :
  (halfsamplesize < 2)%Z ->
  bs_call_av ppf S0 K T r sigma halfsamplesize eps g
  = Ok ((res, possible_reduction), g') ->
  possible_reduction = NaN
  /\ (halfsamplesize = 0%Z -> res = (NaN, NaN, NaN, NaN)).
Proof.
  intros Hsize H. destruct (Z.lt_ge_cases halfsamplesize 0) as [Hneg | Hpos].
  - unfold bs_call_av, terminal_stockprice_av, bind in H.
    rewrite standard_normal_negative in H by assumption. discriminate.
  - destruct (bs_call_av_short_run ppf S0 K T r sigma eps
                (Z.to_nat halfsamplesize) g ltac:(lia)) as (res0 & Hrun & H0).
    rewrite Z2Nat.id in Hrun by assumption. rewrite Hrun in H.
    injection H as H1 H2 _. subst res0 possible_reduction.
    split; [reflexivity |]. intros ->. now apply H0.
Qed.

(** ** The analytical price *)

Lemma step_cdf_probability : probability_valued step_cdf.
Proof.
  intros [x | | |]; simpl.
  - right. destruct (Rle_dec 0 x); eexists; (split; [reflexivity | lra]).
  - right. exists 1. split; [reflexivity | lra].
  - right. exists 0. split; [reflexivity | lra].
  - now left.
Qed.

Lemma probability_nonneg (cdf : float64 -> float64) (a : float64) :
  probability_valued cdf -> nonneg_or_nan (cdf a).
Proof.
  intros H. destruct (H a) as [-> | (p & -> & Hp)]; [now left |].
  right. simpl. lra.
Qed.

(** Whenever the analytical formula returns a price for a spot and a strike
    that are not negative, the price is [nan] or at most the spot [S0],
    whatever the rate, the maturity and the volatility: the first term is
    [S0] times a probability and the second term is not negative.
    [norm.cdf] is a parameter whose values are [nan] or probabilities. *)
Theorem black_scholes_call_at_most_spot
  (cdf : float64 -> float64) (S0 K : R) (r T sigma price : float64) :
  probability_valued cdf -> 0 <= S0 -> 0 <= K ->
  black_scholes_call cdf (Fin S0) (Fin K) r T sigma = inl price ->
  price = NaN \/ fle price (Fin S0).
Proof.
  intros Hcdf HS HK H. unfold black_scholes_call in H.
  destruct (py_div (Fin S0) (Fin K)) as [ratio | e]; [| discriminate].
  cbv zeta in H.
  apply (f_equal (fun v => match v with inl p => p | inr _ => NaN end)) in H.
  cbv beta iota in H. subst price.
  set (d1 := fdiv _ (fmul sigma (fsqrt T))).
  set (tmp2 := fmul (fmul (Fin K) _) _).
  assert (H2 : nonneg_or_nan tmp2).
  { unfold tmp2.
    destruct (fmul_nonneg_or_nan (Fin K) (fexp (fmul (fopp r) T)))
      as [E | E]; [simpl; lra | apply fexp_nonneg | |].
    - left. rewrite E. apply fmul_NaN_l.
    - apply fmul_nonneg_or_nan; [assumption |].
      now apply probability_nonneg. }
  destruct (Hcdf d1) as [-> | (p & -> & Hp)].
  { left. rewrite fmul_NaN_r. reflexivity. }
  change (fmul (Fin S0) (Fin p)) with (Fin (S0 * p)).
  destruct H2 as [-> | H2]; [left; apply fsub_NaN_r |].
  right. destruct (fle_zero_cases tmp2 H2) as [(t & -> & Ht) | ->].
  - simpl. nra.
  - exact I.
Qed.

(** On Python floats a strike of zero makes the division [S0 / K], the
    first operation of the analytical formula, raise [ZeroDivisionError];
    and whenever the formula returns a price for a negative maturity, the
    price is [nan], as [np.sqrt(T)] is.  [norm.cdf] is a parameter that is
    [nan] at [nan]. *)
Theorem black_scholes_call_degenerate
  (cdf : float64 -> float64) (S0 K r sigma : float64) (T : R) :
  cdf NaN = NaN ->
  (K = Fin 0 ->
   black_scholes_call cdf S0 K r (Fin T) sigma = inr ZeroDivisionError)
  /\ (T < 0 ->
      forall price : float64,
        black_scholes_call cdf S0 K r (Fin T) sigma = inl price ->
        price = NaN).
Proof.
  intros Hnan. split.
  - intros ->. unfold black_scholes_call, py_div.
    destruct (Req_dec_T 0 0) as [_ | H]; [reflexivity | now elim H].
  - intros HT price H. unfold black_scholes_call in H.
    destruct (py_div S0 K) as [q | e]; [| discriminate].
    rewrite fsqrt_neg in H by assumption. autorewrite with nan in H.
    change (fsub NaN NaN) with NaN in H. rewrite Hnan in H.
    autorewrite with nan in H. injection H as <-. reflexivity.
Qed.

(** ** The diagnostic of the control-variate estimator *)

Lemma fdiv_NaN_l (b : float64) : fdiv NaN b = NaN.
Proof. destruct b; reflexivity. Qed.

Lemma fmul_both_nonneg_or_nan (a b : float64) :
  nonneg_or_nan a -> nonneg_or_nan b -> nonneg_or_nan (fmul a b).
Proof.
  intros [-> | Ha] Hb; [left; apply fmul_NaN_l |].
  now apply fmul_nonneg_or_nan.
Qed.

Lemma fdiv_both_nonneg_or_nan (a b : float64) :
  nonneg_or_nan a -> nonneg_or_nan b -> nonneg_or_nan (fdiv a b).
Proof.
  intros [-> | Ha] [-> | Hb];
    [left; apply fdiv_NaN_l | left; apply fdiv_NaN_l
    | left; apply fdiv_NaN_r | now apply fdiv_nonneg].
Qed.

Lemma fmul_self_nonneg (a : float64) : nonneg_or_nan (fmul a a).
Proof.
  destruct a as [x | | |]; simpl; try (now left); try (now right).
  right. simpl. nra.
Qed.

Lemma fadd_both_nonneg_or_nan (a b : float64) :
  nonneg_or_nan a -> nonneg_or_nan b -> nonneg_or_nan (fadd a b).
Proof.
  intros [-> | Ha] [-> | Hb]; try (left; reflexivity);
    try (left; apply fadd_NaN_r).
  right.
  destruct (fle_zero_cases a Ha) as [(x & -> & Hx) | ->],
           (fle_zero_cases b Hb) as [(y & -> & Hy) | ->]; simpl;
    (lra || exact I).
Qed.

Lemma fsum_nonneg_or_nan (l : list float64) :
  Forall nonneg_or_nan l -> nonneg_or_nan (fsum l).
Proof.
  induction 1 as [| a l Ha _ IH]; [right; simpl; lra |].
  change (fsum (a :: l)) with (fadd a (fsum l)).
  now apply fadd_both_nonneg_or_nan.
Qed.

Lemma var_nonneg_or_nan (l : list float64) : nonneg_or_nan (var l 1).
Proof.
  unfold var. apply fdiv_both_nonneg_or_nan.
  - apply fsum_nonneg_or_nan. rewrite map_map. apply Forall_map.
    apply Forall_forall. intros v _. apply fmul_self_nonneg.
  - right. unfold of_Z. simpl. apply IZR_le. lia.
Qed.

(** Whenever the control-variate estimator returns, its diagnostic
    [rho_squared] is [nan] or not negative: it is the quotient of a square
    by the product of two variances.  The code does not clip it, and the
    statement gives it no upper bound. *)
Theorem bs_call_cv_rho_squared_nonneg_or_nan
  (ppf : float64 -> float64) (S0 K T r sigma eps : float64) (samplesize : Z)
  (g g' : Generator) (res : float64 * float64 * float64 * float64)
  (rho_squared : float64) :
  bs_call_cv ppf S0 K T r sigma samplesize eps g
  = Ok ((res, rho_squared), g') ->
  nonneg_or_nan rho_squared.
Proof.
  intros H. destruct (Z.lt_ge_cases samplesize 0) as [Hneg | Hpos].
  - unfold bs_call_cv, terminal_stockprice, bind in H.
    rewrite standard_normal_negative in H by assumption. discriminate.
  - pose proof (bs_call_cv_run ppf S0 K T r sigma eps (Z.to_nat samplesize) g)
      as Hrun.
    cbv zeta in Hrun. rewrite Z2Nat.id in Hrun by assumption.
    rewrite Hrun in H.
    apply (f_equal (fun o => match o with
                             | Ok (t, _) => snd t
                             | Raise _ => NaN
                             end)) in H.
    cbv beta iota in H. cbn [snd] in H. subst rho_squared.
    apply fdiv_both_nonneg_or_nan; [apply fmul_self_nonneg |].
    apply fmul_both_nonneg_or_nan; apply var_nonneg_or_nan.
Qed.

(** ** The sample without volatility *)

Lemma terminal_price_no_volatility (S0 r T : float64) (x : R) :
  terminal_price S0 r (Fin 0) T (Fin x)
  = terminal_price S0 r (Fin 0) T (Fin 0).
Proof.
  unfold terminal_price. do 3 f_equal.
  destruct (fsqrt T) as [q | | |]; simpl.
  - f_equal. ring.
  - unfold sign_times. destruct (Rlt_dec 0 0); [lra | reflexivity].
  - unfold sign_times. destruct (Rlt_dec 0 0); [lra | reflexivity].
  - reflexivity.
Qed.

(** Whenever the plain sampler returns for a volatility of zero, all the
    prices of the sample are one and the same value, whatever the draws: the
    draws are multiplied by zero.  This is the sample on which the control
    of the control-variate estimator does not vary. *)
Theorem terminal_stockprice_no_volatility
  (S0 T r : float64) (samplesize : Z) (g g' : Generator)
  (prices : list float64) :
  terminal_stockprice S0 T r (Fin 0) samplesize g = Ok (prices, g') ->
  Forall (fun p => p = terminal_price S0 r (Fin 0) T (Fin 0)) prices.
Proof.
  intros H. destruct (Z.lt_ge_cases samplesize 0) as [Hneg | Hpos].
  - unfold terminal_stockprice, bind in H.
    rewrite standard_normal_negative in H by assumption. discriminate.
  - pose proof (terminal_stockprice_run S0 T r (Fin 0) (Z.to_nat samplesize) g)
      as Hrun.
    cbv zeta in Hrun. rewrite Z2Nat.id in Hrun by assumption.
    rewrite Hrun in H. injection H as <- _.
    apply Forall_map, Forall_forall. intros x _.
    apply terminal_price_no_volatility.
Qed.

(** ** The further properties at work on concrete inputs *)



Lemma black_scholes_call_returns (cdf : float64 -> float64) (S0 K : R)
  (r T sigma : float64) :
  K <> 0 ->
  exists price : float64,
    black_scholes_call cdf (Fin S0) (Fin K) r T sigma = inl price.
Proof.
  intros HK. unfold black_scholes_call, py_div.
  destruct (Req_dec_T K 0); [contradiction |]. eexists. reflexivity.
Qed.


Lemma terminal_prices_nonneg_or_nan_witness :
  exists prices : list float64,
    terminal_stockprice (Fin 50) (Fin 0.25) (Fin 0.05) (Fin 0.3) 2
                        ramp_stream
    = Ok (prices, advance ramp_stream 2)
    /\ Forall nonneg_or_nan prices.
Proof.
  pose proof (terminal_stockprice_run (Fin 50) (Fin 0.25) (Fin 0.05)
                (Fin 0.3) 2 ramp_stream) as Hrun.
  change (Z.of_nat 2) with 2%Z in Hrun.
  eexists. split; [exact Hrun |].
  apply (proj1 (terminal_prices_nonneg_or_nan (Fin 50) (Fin 0.25) (Fin 0.05)
                  (Fin 0.3) 2 ramp_stream ltac:(simpl; lra))
           _ _ Hrun).
Defined.

Lemma bs_call_mc_price_decreases_with_strike_witness :
  exists price1 se1 lo1 hi1 price2 se2 lo2 hi2 : float64,
    bs_call_mc affine_ppf (Fin 50) (Fin 40) (Fin 0.25) (Fin 0.05) (Fin 0.3)
               2 (Fin 0.05) ramp_stream
    = Ok ((price1, se1, lo1, hi1), advance ramp_stream 2)
    /\ bs_call_mc affine_ppf (Fin 50) (Fin 50) (Fin 0.25) (Fin 0.05)
                  (Fin 0.3) 2 (Fin 0.05) ramp_stream
       = Ok ((price2, se2, lo2, hi2), advance ramp_stream 2)
    /\ fle price2 price1.
Proof.
  pose proof (bs_call_mc_finite affine_ppf 50 40 0.25 0.05 0.3 0.05 2
                ramp_stream ltac:(lra)) as H1.
  pose proof (bs_call_mc_finite affine_ppf 50 50 0.25 0.05 0.3 0.05 2
                ramp_stream ltac:(lra)) as H2.
  rewrite gaussian_summary_Fin in H1, H2 by (simpl; lia).
  change (Z.of_nat 2) with 2%Z in H1, H2.
  do 8 eexists. split; [exact H1 |]. split; [exact H2 |].
  apply (bs_call_mc_price_decreases_with_strike affine_ppf (Fin 50)
           (Fin 0.25) (Fin 0.05) (Fin 0.3) (Fin 0.05) 40 50 2 ramp_stream
           _ _ _ _ _ _ _ _ _ _ ltac:(lra) H1 H2);
    discriminate.
Defined.

Lemma bs_call_cv_small_sample_witness :
  exists (res : float64 * float64 * float64 * float64 * float64)
         (g' : Generator),
    bs_call_cv affine_ppf (Fin 50) (Fin 50) (Fin 0.25) (Fin 0.05) (Fin 0.3)
               1 (Fin 0.05) ramp_stream
    = Ok (res, g')
    /\ res = (NaN, NaN, NaN, NaN, NaN).
Proof.
  pose proof (bs_call_cv_run affine_ppf (Fin 50) (Fin 50) (Fin 0.25)
                (Fin 0.05) (Fin 0.3) (Fin 0.05) 1 ramp_stream) as Hrun.
  cbv zeta in Hrun. change (Z.of_nat 1) with 1%Z in Hrun.
  do 2 eexists. split; [exact Hrun |].
  apply (bs_call_cv_small_sample affine_ppf (Fin 50) (Fin 50) (Fin 0.25)
           (Fin 0.05) (Fin 0.3) (Fin 0.05) 1 ramp_stream _ _ ltac:(lia) Hrun).
Defined.

Lemma bs_call_av_small_sample_witness :
  exists (res : float64 * float64 * float64 * float64)
         (possible_reduction : float64) (g' : Generator),
    bs_call_av affine_ppf (Fin 50) (Fin 50) (Fin 0.25) (Fin 0.05) (Fin 0.3)
               1 (Fin 0.05) ramp_stream
    = Ok ((res, possible_reduction), g')
    /\ possible_reduction = NaN.
Proof.
  pose proof (bs_call_av_run affine_ppf (Fin 50) (Fin 50) (Fin 0.25)
                (Fin 0.05) (Fin 0.3) (Fin 0.05) 1 ramp_stream) as Hrun.
  cbv zeta in Hrun. change (Z.of_nat 1) with 1%Z in Hrun.
  do 3 eexists. split; [exact Hrun |].
  apply (proj1 (bs_call_av_small_sample affine_ppf (Fin 50) (Fin 50)
                  (Fin 0.25) (Fin 0.05) (Fin 0.3) (Fin 0.05) 1 ramp_stream
                  _ _ _ ltac:(lia) Hrun)).
Defined.

Lemma black_scholes_call_at_most_spot_witness :
  exists price : float64,
    black_scholes_call step_cdf (Fin 50) (Fin 50) (Fin 0.05) (Fin 0.25)
                       (Fin 0.3)
    = inl price
    /\ (price = NaN \/ fle price (Fin 50)).
Proof.
  destruct (black_scholes_call_returns step_cdf 50 50 (Fin 0.05) (Fin 0.25)
              (Fin 0.3) ltac:(lra)) as [price Hrun].
  exists price. split; [exact Hrun |].
  apply (black_scholes_call_at_most_spot step_cdf 50 50 (Fin 0.05)
           (Fin 0.25) (Fin 0.3) price step_cdf_probability
           ltac:(lra) ltac:(lra) Hrun).
Defined.

Lemma black_scholes_call_degenerate_witness :
  black_scholes_call step_cdf (Fin 50) (Fin 0) (Fin 0.05) (Fin 0.25) (Fin 0.3)
  = inr ZeroDivisionError
  /\ exists price : float64,
       black_scholes_call step_cdf (Fin 50) (Fin 50) (Fin 0.05) (Fin (-1))
                          (Fin 0.3)
       = inl price
       /\ price = NaN.
Proof.
  split.
  - apply (proj1 (black_scholes_call_degenerate step_cdf (Fin 50) (Fin 0)
                    (Fin 0.05) (Fin 0.3) 0.25 eq_refl)).
    reflexivity.
  - destruct (black_scholes_call_returns step_cdf 50 50 (Fin 0.05)
                (Fin (-1)) (Fin 0.3) ltac:(lra)) as [price Hrun].
    exists price. split; [exact Hrun |].
    apply (proj2 (black_scholes_call_degenerate step_cdf (Fin 50) (Fin 50)
                    (Fin 0.05) (Fin 0.3) (-1) eq_refl)
             ltac:(lra) price Hrun).
Defined.

Lemma bs_call_cv_rho_squared_nonneg_or_nan_witness :
  exists (res : float64 * float64 * float64 * float64)
         (rho_squared : float64) (g' : Generator),
    bs_call_cv affine_ppf (Fin 50) (Fin 50) (Fin 0.25) (Fin 0.05) (Fin 0.3)
               2 (Fin 0.05) ramp_stream
    = Ok ((res, rho_squared), g')
    /\ nonneg_or_nan rho_squared.
Proof.
  pose proof (bs_call_cv_run affine_ppf (Fin 50) (Fin 50) (Fin 0.25)
                (Fin 0.05) (Fin 0.3) (Fin 0.05) 2 ramp_stream) as Hrun.
  cbv zeta in Hrun. change (Z.of_nat 2) with 2%Z in Hrun.
  do 3 eexists. split; [exact Hrun |].
  apply (bs_call_cv_rho_squared_nonneg_or_nan affine_ppf (Fin 50) (Fin 50)
           (Fin 0.25) (Fin 0.05) (Fin 0.3) (Fin 0.05) 2 ramp_stream
           _ _ _ Hrun).
Defined.

Lemma terminal_stockprice_no_volatility_witness :
  exists prices : list float64,
    terminal_stockprice (Fin 50) (Fin 0.25) (Fin 0.05) (Fin 0) 2 ramp_stream
    = Ok (prices, advance ramp_stream 2)
    /\ Forall (fun p => p = terminal_price (Fin 50) (Fin 0.05) (Fin 0)
                              (Fin 0.25) (Fin 0))
              prices.
Proof.
  pose proof (terminal_stockprice_run (Fin 50) (Fin 0.25) (Fin 0.05)
                (Fin 0) 2 ramp_stream) as Hrun.
  change (Z.of_nat 2) with 2%Z in Hrun.
  eexists. split; [exact Hrun |].
  apply (terminal_stockprice_no_volatility (Fin 50) (Fin 0.25) (Fin 0.05) 2
           ramp_stream _ _ Hrun).
Defined.
